(** * Grid: native coordinates and local metric of a mesh block

    A shallow embedding of [kharma/grid.hpp].  The class [Grid] answers, for a
    zone (i,j,k) and a staggering location, where the zone is and what the
    metric there is.  The header selects one of three geometry back ends with
    the preprocessor flags [FAST_CARTESIAN] and [NO_CACHE]; the embedding
    keeps the three branches and dispatches on a configuration record, so that
    each branch can be read against its [#if] arm.

    Conventions of the embedding
    - [Real] and [GReal] (double precision in the source) are the real
      numbers: rounding is not modelled, equalities are exact.
    - [int] indices are [Z]; no index arithmetic of the source can overflow.
    - A C array [T a[NDIM]] is a record of four cells, read and written through
      an index that must lie in 0..3.
    - A Kokkos view is a shape and a cell function; an access outside the
      shape has no defined result.
    - A computation that can touch an array, a view or a pointer lives in the
      [option] monad: [None] is "no defined result". *)

From Stdlib Require Import ZArith List Bool Lia.
From Stdlib Require Import Reals Lra.
Import ListNotations.

Local Open Scope Z_scope.

(** ** The error monad *)

Definition bind {A B : Type} (c : option A) (k : A -> option B) : option B :=
  match c with
  | Some a => k a
  | None => None
  end.

Notation "x <- c ;; k" := (bind c (fun x => k))
  (at level 61, c at next level, right associativity).

(** ** Counted loops

    [for (int i = lo; i < hi; ++i) body] threads a state through the
    iterations; an iteration without a defined result ends the loop. *)

Definition range (lo hi : Z) : list Z :=
  map (fun n => lo + Z.of_nat n) (seq 0 (Z.to_nat (hi - lo))).

Fixpoint for_each {I S : Type} (l : list I) (body : I -> S -> option S) (s : S)
  : option S :=
  match l with
  | [] => Some s
  | i :: l' => s' <- body i s ;; for_each l' body s'
  end.

Definition for_range {S : Type} (lo hi : Z) (body : Z -> S -> option S) (s : S)
  : option S :=
  for_each (range lo hi) body s.

(** ** Scalars, dimensions, locations *)

Definition Real := R.
Definition GReal := R.

(** Modelled from the spec: [NDIM], [NLOC], the enumeration [Loci] and the
    loop macros [DLOOP1], [DLOOP2], [DLOOP3] come from [decs.hpp], which is
    not part of the sources at hand.  The spec fixes a 4-dimensional
    coordinate system, 4x4 metrics, 4x4x4 connections and "a closed
    enumeration of 5 variants: center, face1, face2, face3, corner".  The
    embedding numbers the enumerators in that order from 0; the properties
    below use only that the numbering is one-to-one onto 0..NLOC-1. *)
Definition NDIM : Z := 4.
Definition NLOC : Z := 5.

Inductive Loci : Type := center | face1 | face2 | face3 | corner.

(** The implicit conversion of an enumerator to [int]. *)
Definition Loci_to_int (loc : Loci) : Z :=
  match loc with
  | center => 0
  | face1 => 1
  | face2 => 2
  | face3 => 3
  | corner => 4
  end.

(** The cast [(Loci)loc]; an [int] that numbers no enumerator gives no
    location. *)
Definition int_to_Loci (n : Z) : option Loci :=
  match n with
  | 0 => Some center
  | 1 => Some face1
  | 2 => Some face2
  | 3 => Some face3
  | 4 => Some corner
  | _ => None
  end.

Definition DLOOP1 {S : Type} (body : Z -> S -> option S) : S -> option S :=
  for_range 0 NDIM body.

Definition DLOOP2 {S : Type} (body : Z -> Z -> S -> option S) : S -> option S :=
  for_range 0 NDIM (fun mu => for_range 0 NDIM (fun nu => body mu nu)).

Definition DLOOP3 {S : Type} (body : Z -> Z -> Z -> S -> option S)
  : S -> option S :=
  for_range 0 NDIM (fun mu =>
    for_range 0 NDIM (fun nu =>
      for_range 0 NDIM (fun lam => body mu nu lam))).

(** ** Fixed-size arrays *)

Record Arr4 (A : Type) : Type := mkArr4 { e0 : A; e1 : A; e2 : A; e3 : A }.

Arguments mkArr4 {A} _ _ _ _.
Arguments e0 {A} _.
Arguments e1 {A} _.
Arguments e2 {A} _.
Arguments e3 {A} _.

(** [a[mu]] as an rvalue. *)
Definition rd {A : Type} (a : Arr4 A) (mu : Z) : option A :=
  match mu with
  | 0 => Some (e0 a)
  | 1 => Some (e1 a)
  | 2 => Some (e2 a)
  | 3 => Some (e3 a)
  | _ => None
  end.

(** [a[mu] = x]. *)
Definition wr {A : Type} (a : Arr4 A) (mu : Z) (x : A) : option (Arr4 A) :=
  match mu with
  | 0 => Some (mkArr4 x (e1 a) (e2 a) (e3 a))
  | 1 => Some (mkArr4 (e0 a) x (e2 a) (e3 a))
  | 2 => Some (mkArr4 (e0 a) (e1 a) x (e3 a))
  | 3 => Some (mkArr4 (e0 a) (e1 a) (e2 a) x)
  | _ => None
  end.

Definition Vec4 := Arr4 Real.      (* Real v[NDIM] *)
Definition Mat4 := Arr4 Vec4.      (* Real g[NDIM][NDIM] *)
Definition Ten3 := Arr4 Mat4.      (* Real c[NDIM][NDIM][NDIM] *)

Definition rd2 (g : Mat4) (mu nu : Z) : option Real :=
  row <- rd g mu ;; rd row nu.

Definition wr2 (g : Mat4) (mu nu : Z) (x : Real) : option Mat4 :=
  row <- rd g mu ;; row' <- wr row nu x ;; wr g mu row'.

Definition rd3 (c : Ten3) (mu nu lam : Z) : option Real :=
  plane <- rd c mu ;; rd2 plane nu lam.

Definition wr3 (c : Ten3) (mu nu lam : Z) (x : Real) : option Ten3 :=
  plane <- rd c mu ;; plane' <- wr2 plane nu lam x ;; wr c mu plane'.

(** ** Kokkos views

    [GeomTensor], [GeomScalar] and [GeomConn] are views of [Real]; a view is a
    handle on a buffer, so that a copy of the handle ([auto gcon_local =
    G.gcon_direct]) names the same cells.  The embedding keeps one buffer per
    member and lets a write through the copy land in the member. *)

Record View : Type := mkView { extent : list Z; cell : list Z -> Real }.

Fixpoint in_bounds (idx ext : list Z) : bool :=
  match idx, ext with
  | [], [] => true
  | i :: idx', n :: ext' => (0 <=? i) && (i <? n) && in_bounds idx' ext'
  | _, _ => false
  end.

(** A view constructed with a label and extents: cells start at zero. *)
Definition view_alloc (ext : list Z) : View :=
  mkView ext (fun _ => 0%R).

(** A default-constructed view: no cell can be accessed. *)
Definition view_default : View :=
  mkView [] (fun _ => 0%R).

Definition view_read (v : View) (idx : list Z) : option Real :=
  if in_bounds idx (extent v) then Some (cell v idx) else None.

Definition view_write (v : View) (idx : list Z) (x : Real) : option View :=
  if in_bounds idx (extent v)
  then Some (mkView (extent v)
               (fun k => if list_eq_dec Z.eq_dec k idx then x else cell v k))
  else None.

(** Modelled from the spec: the three view types are declared in [decs.hpp],
    which is not part of the sources at hand.  The spec indexes the metric
    fields by (Location, i, j, mu, nu), the scalar by (Location, i, j) and
    the connection by (i, j, mu, nu, lambda); the constructors of
    [init_grids] give the leading extents, the trailing ones are [NDIM]. *)
Definition GeomTensor := View.
Definition GeomScalar := View.
Definition GeomConn := View.

(** ** Collaborators *)

(** [ParArrayND<Real>], the mesh framework's one-dimensional coordinate
    array, read as [x(i)]; its bounds belong to the mesh block. *)
Definition ParArrayND := Z -> Real.

Record Coordinates : Type := mkCoordinates {
  pc_x1f : ParArrayND; pc_x2f : ParArrayND; pc_x3f : ParArrayND;
  pc_x1v : ParArrayND; pc_x2v : ParArrayND; pc_x3v : ParArrayND
}.

Record MeshBlock : Type := mkMeshBlock { pcoord : Coordinates }.

(** [CoordinateEmbedding] ([coordinate_embedding.hpp]): the four member
    functions the grid calls.  Each fills its output array completely;
    [gcon_native] also returns the determinant-derived scalar. *)
Record CoordinateEmbedding : Type := mkCoordinateEmbedding {
  coord_to_embed : Vec4 -> Vec4;
  gcov_native : Vec4 -> Mat4;
  gcon_native : Mat4 -> Real * Mat4;
  conn_func : Vec4 -> Ten3
}.

(** A pointer either refers to an object or cannot be dereferenced (it was
    never set, or is null). *)
Definition Pointer (A : Type) := option A.

(** ** Build configuration *)

Record Config : Type := mkConfig { FAST_CARTESIAN : bool; NO_CACHE : bool }.

(** The header as shipped: [#define FAST_CARTESIAN 1], [#define NO_CACHE 0]. *)
Definition shipped_config : Config := mkConfig true false.
Definition direct_config : Config := mkConfig false true.
Definition cached_config : Config := mkConfig false false.

(** ** The class *)

(** The four [*_direct] members are declared when both flags are 0; the
    accessors of the [NO_CACHE] arm name them all the same.  [gn1] and [gn2]
    are read by the caching [init_grids] as members of [Grid]; the header
    neither declares nor assigns them, so the constructors below receive them
    as arguments. *)
Record Grid : Type := mkGrid {
  coords : Pointer CoordinateEmbedding;
  x1f : ParArrayND; x2f : ParArrayND; x3f : ParArrayND;
  x1v : ParArrayND; x2v : ParArrayND; x3v : ParArrayND;
  gcon_direct : GeomTensor;
  gcov_direct : GeomTensor;
  gdet_direct : GeomScalar;
  conn_direct : GeomConn;
  gn1 : Z;
  gn2 : Z
}.

Definition set_gcon_direct (G : Grid) (v : GeomTensor) : Grid :=
  mkGrid (coords G) (x1f G) (x2f G) (x3f G) (x1v G) (x2v G) (x3v G)
         v (gcov_direct G) (gdet_direct G) (conn_direct G) (gn1 G) (gn2 G).

Definition set_gcov_direct (G : Grid) (v : GeomTensor) : Grid :=
  mkGrid (coords G) (x1f G) (x2f G) (x3f G) (x1v G) (x2v G) (x3v G)
         (gcon_direct G) v (gdet_direct G) (conn_direct G) (gn1 G) (gn2 G).

Definition set_gdet_direct (G : Grid) (v : GeomScalar) : Grid :=
  mkGrid (coords G) (x1f G) (x2f G) (x3f G) (x1v G) (x2v G) (x3v G)
         (gcon_direct G) (gcov_direct G) v (conn_direct G) (gn1 G) (gn2 G).

Definition set_conn_direct (G : Grid) (v : GeomConn) : Grid :=
  mkGrid (coords G) (x1f G) (x2f G) (x3f G) (x1v G) (x2v G) (x3v G)
         (gcon_direct G) (gcov_direct G) (gdet_direct G) v (gn1 G) (gn2 G).

(** *** Metric accessors, one component *)

(** [-2*(mu == 0 && nu == 0) + (mu == nu)]: integer arithmetic on the two
    comparisons, converted to [Real] by the return. *)
Definition flat_component (mu nu : Z) : Real :=
  IZR (-2 * Z.b2z ((mu =? 0) && (nu =? 0)) + Z.b2z (mu =? nu)).

Definition gcon (cfg : Config) (G : Grid) (loc : Loci) (i j mu nu : Z)
  : option Real :=
  if FAST_CARTESIAN cfg then Some (flat_component mu nu)
  else if NO_CACHE cfg then
    view_read (gcon_direct G) [Loci_to_int loc; i; j; mu; nu]
  else
    view_read (gcon_direct G) [Loci_to_int loc; i; j; mu; nu].

Definition gcov (cfg : Config) (G : Grid) (loc : Loci) (i j mu nu : Z)
  : option Real :=
  if FAST_CARTESIAN cfg then Some (flat_component mu nu)
  else if NO_CACHE cfg then
    view_read (gcov_direct G) [Loci_to_int loc; i; j; mu; nu]
  else
    view_read (gcov_direct G) [Loci_to_int loc; i; j; mu; nu].

Definition gdet (cfg : Config) (G : Grid) (loc : Loci) (i j : Z)
  : option Real :=
  if FAST_CARTESIAN cfg then Some (IZR 1)
  else if NO_CACHE cfg then
    view_read (gdet_direct G) [Loci_to_int loc; i; j]
  else
    view_read (gdet_direct G) [Loci_to_int loc; i; j].

Definition conn (cfg : Config) (G : Grid) (i j mu nu lam : Z) : option Real :=
  if FAST_CARTESIAN cfg then Some (IZR 0)
  else if NO_CACHE cfg then
    view_read (conn_direct G) [i; j; mu; nu; lam]
  else
    view_read (conn_direct G) [i; j; mu; nu; lam].

(** *** Metric accessors, whole tensor

    The overloads that fill a caller's array.  The [NO_CACHE] arm declares
    none, so a call has nothing to resolve to there. *)

Definition gcon_full (cfg : Config) (G : Grid) (loc : Loci) (i j : Z)
    (out : Mat4) : option Mat4 :=
  if FAST_CARTESIAN cfg then
    DLOOP2 (fun mu nu out => wr2 out mu nu (flat_component mu nu)) out
  else if NO_CACHE cfg then None
  else
    DLOOP2 (fun mu nu out =>
      x <- view_read (gcon_direct G) [Loci_to_int loc; i; j; mu; nu] ;;
      wr2 out mu nu x) out.

Definition gcov_full (cfg : Config) (G : Grid) (loc : Loci) (i j : Z)
    (out : Mat4) : option Mat4 :=
  if FAST_CARTESIAN cfg then
    DLOOP2 (fun mu nu out => wr2 out mu nu (flat_component mu nu)) out
  else if NO_CACHE cfg then None
  else
    DLOOP2 (fun mu nu out =>
      x <- view_read (gcov_direct G) [Loci_to_int loc; i; j; mu; nu] ;;
      wr2 out mu nu x) out.

Definition conn_full (cfg : Config) (G : Grid) (i j : Z) (out : Ten3)
  : option Ten3 :=
  if FAST_CARTESIAN cfg then
    DLOOP3 (fun mu nu lam out => wr3 out mu nu lam (IZR 0)) out
  else if NO_CACHE cfg then None
  else
    DLOOP3 (fun mu nu lam out =>
      x <- view_read (conn_direct G) [i; j; mu; nu; lam] ;;
      wr3 out mu nu lam x) out.

(** *** Coordinates *)

(** [Grid::coord]: native coordinates of a zone, written into [X]. *)
Definition coord (G : Grid) (i j k : Z) (loc : Loci) (X : Vec4) : option Vec4 :=
  X <- wr X 0 (IZR 0) ;;
  match loc with
  | face1 =>
      X <- wr X 1 (x1f G i) ;; X <- wr X 2 (x2v G j) ;; wr X 3 (x3v G k)
  | face2 =>
      X <- wr X 1 (x1v G i) ;; X <- wr X 2 (x2f G j) ;; wr X 3 (x3v G k)
  | face3 =>
      X <- wr X 1 (x1v G i) ;; X <- wr X 2 (x2v G j) ;; wr X 3 (x3f G k)
  | center =>
      X <- wr X 1 (x1v G i) ;; X <- wr X 2 (x2v G j) ;; wr X 3 (x3v G k)
  | corner =>
      X <- wr X 1 (x1f G i) ;; X <- wr X 2 (x2f G j) ;; wr X 3 (x3f G k)
  end.

(** A local array declared without an initialiser.  Every use below writes
    all four cells before any is read; the embedding starts them at 0. *)
Definition local_Vec4 : Vec4 := mkArr4 0%R 0%R 0%R 0%R.

(** [Grid::coord_embed]: the embedding of the native coordinates, through
    the pointer [coords]. *)
Definition coord_embed (G : Grid) (i j k : Z) (loc : Loci) (Xembed : Vec4)
  : option Vec4 :=
  Xnative <- coord G i j k loc local_Vec4 ;;
  cs <- coords G ;;
  Some (coord_to_embed cs Xnative).

(** *** Lowering and raising an index *)

Definition lower (cfg : Config) (G : Grid) (vcon vcov : Vec4)
    (i j k : Z) (loc : Loci) : option Vec4 :=
  vcov <- DLOOP1 (fun mu vcov => wr vcov mu (IZR 0)) vcov ;;
  DLOOP2 (fun mu nu vcov =>
    g <- gcov cfg G loc i j mu nu ;;
    x <- rd vcon nu ;;
    acc <- rd vcov mu ;;
    wr vcov mu (acc + g * x)%R) vcov.

Definition raise (cfg : Config) (G : Grid) (vcov vcon : Vec4)
    (i j k : Z) (loc : Loci) : option Vec4 :=
  vcon <- DLOOP1 (fun mu vcon => wr vcon mu (IZR 0)) vcon ;;
  DLOOP2 (fun mu nu vcon =>
    g <- gcon cfg G loc i j mu nu ;;
    x <- rd vcov nu ;;
    acc <- rd vcon mu ;;
    wr vcon mu (acc + g * x)%R) vcon.

(** *** Filling the cache *)

(** The body of the kernel [init_geom] at (i,j).  [Gc] is the grid as the
    lambda captured it (it serves [coord] only), [cs] the copy of the
    embedding made before the launch; the state is the grid whose views the
    local handles name. *)
Definition init_geom_body (Gc : Grid) (cs : CoordinateEmbedding) (i j : Z)
    (G : Grid) : option Grid :=
  for_range 0 NLOC (fun loc G =>
    l <- int_to_Loci loc ;;
    X <- coord Gc i j 0 l local_Vec4 ;;
    let gcov_loc := gcov_native cs X in
    let '(det, gcon_loc) := gcon_native cs gcov_loc in
    gdet_local <- view_write (gdet_direct G) [loc; i; j] det ;;
    DLOOP2 (fun mu nu G =>
      c <- rd2 gcov_loc mu nu ;;
      gcov_local <- view_write (gcov_direct G) [loc; i; j; mu; nu] c ;;
      let G := set_gcov_direct G gcov_local in
      c <- rd2 gcon_loc mu nu ;;
      gcon_local <- view_write (gcon_direct G) [loc; i; j; mu; nu] c ;;
      Some (set_gcon_direct G gcon_local))
      (set_gdet_direct G gdet_local)) G.

(** The body of the kernel [init_conn] at (i,j). *)
Definition init_conn_body (Gc : Grid) (cs : CoordinateEmbedding) (i j : Z)
    (G : Grid) : option Grid :=
  X <- coord Gc i j 0 center local_Vec4 ;;
  let conn_loc := conn_func cs X in
  DLOOP2 (fun mu nu =>
    for_range 0 NDIM (fun kap G =>
      c <- rd3 conn_loc mu nu kap ;;
      conn_local <- view_write (conn_direct G) [i; j; mu; nu; kap] c ;;
      Some (set_conn_direct G conn_local))) G.

(** [Kokkos::parallel_for] over [MDRangePolicy<Rank<2>>({0,0},{n1,n2})],
    run row by row.  The iterations write disjoint cells; that another order
    leaves the same cache is [cache_independent_of_schedule] below. *)
Definition parallel_for2 {S : Type} (n1 n2 : Z) (body : Z -> Z -> S -> option S)
  : S -> option S :=
  for_range 0 n1 (fun i => for_range 0 n2 (fun j => body i j)).

(** Any other order in which the iterations of a launch may run: a list of
    index pairs that holds exactly the pairs of the range. *)
Definition run_schedule {S : Type} (sched : list (Z * Z))
    (body : Z -> Z -> S -> option S) : S -> option S :=
  for_each sched (fun ij => body (fst ij) (snd ij)).

Definition covers (n1 n2 : Z) (sched : list (Z * Z)) : Prop :=
  forall i j, In (i, j) sched <-> 0 <= i < n1 /\ 0 <= j < n2.

Definition init_grids (cfg : Config) (G : Grid) : option Grid :=
  if FAST_CARTESIAN cfg || NO_CACHE cfg then Some G
  else
    let G := set_gcon_direct G (view_alloc [NLOC; gn1 G; gn2 G; NDIM; NDIM]) in
    let G := set_gcov_direct G (view_alloc [NLOC; gn1 G; gn2 G; NDIM; NDIM]) in
    let G := set_gdet_direct G (view_alloc [NLOC; gn1 G; gn2 G]) in
    let G := set_conn_direct G (view_alloc [gn1 G; gn2 G; NDIM; NDIM; NDIM]) in
    cs <- coords G ;;
    G' <- parallel_for2 (gn1 G) (gn2 G) (init_geom_body G cs) G ;;
    parallel_for2 (gn1 G) (gn2 G) (init_conn_body G cs) G'.

(** *** Constructors *)

(** The object of [Grid::Grid(CoordinateEmbedding* coordinates, MeshBlock*
    pmb)] once the initialiser list and the six assignments have run: the
    views are still default-constructed. *)
Definition assigned (n1 n2 : Z) (coordinates : Pointer CoordinateEmbedding)
    (pmb : MeshBlock) : Grid :=
  mkGrid coordinates
    (pc_x1f (pcoord pmb)) (pc_x2f (pcoord pmb)) (pc_x3f (pcoord pmb))
    (pc_x1v (pcoord pmb)) (pc_x2v (pcoord pmb)) (pc_x3v (pcoord pmb))
    view_default view_default view_default view_default n1 n2.

(** [Grid::Grid(CoordinateEmbedding* coordinates, MeshBlock* pmb)]. *)
Definition Grid_embedded (cfg : Config) (n1 n2 : Z)
    (coordinates : Pointer CoordinateEmbedding) (pmb : MeshBlock)
  : option Grid :=
  init_grids cfg (assigned n1 n2 coordinates pmb).

(** [Grid::Grid(MeshBlock* pmb)], declared under [#if FAST_CARTESIAN]: no
    member initialiser and no assignment for [coords]. *)
Definition Grid_flat (pmb : MeshBlock) : Grid :=
  mkGrid None
    (pc_x1f (pcoord pmb)) (pc_x2f (pcoord pmb)) (pc_x3f (pcoord pmb))
    (pc_x1v (pcoord pmb)) (pc_x2v (pcoord pmb)) (pc_x3v (pcoord pmb))
    view_default view_default view_default view_default 0 0.

(** ** Vocabulary of the properties *)

(** The Minkowski metric diag(-1,+1,+1,+1). *)
Definition minkowski (mu nu : Z) : Real :=
  if mu =? nu then (if mu =? 0 then (-1)%R else 1%R) else 0%R.

Definition minkowski_matrix : Mat4 :=
  mkArr4 (mkArr4 (-1)%R 0%R 0%R 0%R)
         (mkArr4 0%R 1%R 0%R 0%R)
         (mkArr4 0%R 0%R 1%R 0%R)
         (mkArr4 0%R 0%R 0%R 1%R).

Definition zero_vector : Vec4 := mkArr4 0%R 0%R 0%R 0%R.
Definition zero_matrix : Mat4 :=
  mkArr4 zero_vector zero_vector zero_vector zero_vector.
Definition zero_tensor : Ten3 :=
  mkArr4 zero_matrix zero_matrix zero_matrix zero_matrix.

Definition identity_matrix : Mat4 :=
  mkArr4 (mkArr4 1%R 0%R 0%R 0%R)
         (mkArr4 0%R 1%R 0%R 0%R)
         (mkArr4 0%R 0%R 1%R 0%R)
         (mkArr4 0%R 0%R 0%R 1%R).

Definition dot (u v : Vec4) : Real :=
  (e0 u * e0 v + e1 u * e1 v + e2 u * e2 v + e3 u * e3 v)%R.

Definition column (g : Mat4) (pick : Vec4 -> Real) : Vec4 :=
  mkArr4 (pick (e0 g)) (pick (e1 g)) (pick (e2 g)) (pick (e3 g)).

(** The contraction [sum_nu g[mu][nu] * v[nu]]. *)
Definition mat_vec (g : Mat4) (v : Vec4) : Vec4 :=
  mkArr4 (dot (e0 g) v) (dot (e1 g) v) (dot (e2 g) v) (dot (e3 g) v).

Definition mat_mul (a b : Mat4) : Mat4 :=
  let row r := mkArr4 (dot r (column b e0)) (dot r (column b e1))
                      (dot r (column b e2)) (dot r (column b e3)) in
  mkArr4 (row (e0 a)) (row (e1 a)) (row (e2 a)) (row (e3 a)).

Definition inverse_of (a b : Mat4) : Prop :=
  mat_mul a b = identity_matrix /\ mat_mul b a = identity_matrix.

Definition in_block (G : Grid) (i j : Z) : Prop :=
  0 <= i < gn1 G /\ 0 <= j < gn2 G.

Definition index4 (mu : Z) : Prop := 0 <= mu < NDIM.

(** What the cache is to hold at a location of a zone: the embedding's
    metric at the native coordinates with third index 0, its inverse and the
    scalar that comes with the inverse; and, per zone, the connection at the
    centre. *)
Definition native_at (G : Grid) (i j : Z) (loc : Loci) : option Vec4 :=
  coord G i j 0 loc local_Vec4.

Definition metric_at (G : Grid) (cs : CoordinateEmbedding) (i j : Z)
    (loc : Loci) : option Mat4 :=
  X <- native_at G i j loc ;; Some (gcov_native cs X).

Definition inverse_at (G : Grid) (cs : CoordinateEmbedding) (i j : Z)
    (loc : Loci) : option Mat4 :=
  g <- metric_at G cs i j loc ;; Some (snd (gcon_native cs g)).

Definition scalar_at (G : Grid) (cs : CoordinateEmbedding) (i j : Z)
    (loc : Loci) : option Real :=
  g <- metric_at G cs i j loc ;; Some (fst (gcon_native cs g)).

Definition connection_at (G : Grid) (cs : CoordinateEmbedding) (i j : Z)
  : option Ten3 :=
  X <- native_at G i j center ;; Some (conn_func cs X).

(** Which axes a location staggers: on those the face array is read, on the
    others the array of centres. *)
Definition staggers (axis : Z) (loc : Loci) : bool :=
  match loc with
  | center => false
  | face1 => axis =? 1
  | face2 => axis =? 2
  | face3 => axis =? 3
  | corner => true
  end.

Definition pick (on_face : bool) (xf xv : ParArrayND) (n : Z) : Real :=
  if on_face then xf n else xv n.

(** The sixteen values of a component accessor, gathered row by row. *)
Definition tabulate2 (f : Z -> Z -> option Real) : option Mat4 :=
  DLOOP2 (fun mu nu m => x <- f mu nu ;; wr2 m mu nu x) zero_matrix.

(** Lowering followed by raising, at one zone and location. *)
Definition raise_lower (cfg : Config) (G : Grid) (v out1 out2 : Vec4)
    (i j k : Z) (loc : Loci) : option Vec4 :=
  w <- lower cfg G v out1 i j k loc ;; raise cfg G w out2 i j k loc.

(** The metric can be read at a zone and location, and its contravariant
    form is the inverse of the covariant one. *)
Definition metric_invertible_at (cfg : Config) (G : Grid) (loc : Loci)
    (i j : Z) : Prop :=
  exists g h,
    tabulate2 (gcov cfg G loc i j) = Some g /\
    tabulate2 (gcon cfg G loc i j) = Some h /\
    inverse_of g h.

(** The embedding inverts the metrics it produces itself. *)
Definition inverts_own_metric (cs : CoordinateEmbedding) : Prop :=
  forall X, inverse_of (gcov_native cs X) (snd (gcon_native cs (gcov_native cs X))).

(** *** Bookkeeping for the cache fill *)

Inductive Field : Type := F_gcon | F_gcov | F_gdet | F_conn.

Definition view_of (f : Field) (G : Grid) : View :=
  match f with
  | F_gcon => gcon_direct G
  | F_gcov => gcov_direct G
  | F_gdet => gdet_direct G
  | F_conn => conn_direct G
  end.

Definition set_view (f : Field) (G : Grid) (v : View) : Grid :=
  match f with
  | F_gcon => set_gcon_direct G v
  | F_gcov => set_gcov_direct G v
  | F_gdet => set_gdet_direct G v
  | F_conn => set_conn_direct G v
  end.

Definition write_slot (f : Field) (idx : list Z) (x : Real) (G : Grid)
  : option Grid :=
  v <- view_write (view_of f G) idx x ;; Some (set_view f G v).

(** Everything of a grid that the fill leaves alone. *)
Definition same_frame (G0 G : Grid) : Prop :=
  coords G = coords G0 /\
  x1f G = x1f G0 /\ x2f G = x2f G0 /\ x3f G = x3f G0 /\
  x1v G = x1v G0 /\ x2v G = x2v G0 /\ x3v G = x3v G0 /\
  gn1 G = gn1 G0 /\ gn2 G = gn2 G0 /\
  forall f, extent (view_of f G) = extent (view_of f G0).

(** The value each cell of the cache is to receive. *)
Definition cache_target (Gc : Grid) (cs : CoordinateEmbedding) (f : Field)
    (idx : list Z) : option Real :=
  match f, idx with
  | F_gcov, [loc; i; j; mu; nu] =>
      l <- int_to_Loci loc ;; g <- metric_at Gc cs i j l ;; rd2 g mu nu
  | F_gcon, [loc; i; j; mu; nu] =>
      l <- int_to_Loci loc ;; h <- inverse_at Gc cs i j l ;; rd2 h mu nu
  | F_gdet, [loc; i; j] =>
      l <- int_to_Loci loc ;; scalar_at Gc cs i j l
  | F_conn, [i; j; mu; nu; kap] =>
      c <- connection_at Gc cs i j ;; rd3 c mu nu kap
  | _, _ => None
  end.

Definition Slots := Field -> list Z -> Prop.

Definition filled (Gc : Grid) (cs : CoordinateEmbedding) (D : Slots) (G : Grid)
  : Prop :=
  forall f idx, D f idx ->
    exists v, cache_target Gc cs f idx = Some v /\
              view_read (view_of f G) idx = Some v.

Definition fill_inv (Gc : Grid) (cs : CoordinateEmbedding) (D : Slots)
    (G : Grid) : Prop :=
  same_frame Gc G /\ filled Gc cs D G.

(** A command fills the slots [E]: from any state in which some slots [D]
    hold their target it returns, and then [D] and [E] hold theirs. *)
Definition fills (Gc : Grid) (cs : CoordinateEmbedding) (E : Slots)
    (c : Grid -> option Grid) : Prop :=
  forall D G, fill_inv Gc cs D G ->
    exists G', c G = Some G' /\
               fill_inv Gc cs (fun f idx => D f idx \/ E f idx) G'.

Definition one_slot (f : Field) (idx : list Z) : Slots :=
  fun f' idx' => f' = f /\ idx' = idx.

(** The cells one iteration of a kernel writes, and those a whole launch
    writes. *)
Definition geom_slots_at (loc i j : Z) : Slots :=
  fun f idx =>
    (f = F_gdet /\ idx = [loc; i; j]) \/
    exists mu nu, index4 mu /\ index4 nu /\
      (f = F_gcov \/ f = F_gcon) /\ idx = [loc; i; j; mu; nu].

Definition conn_slots_at (i j : Z) : Slots :=
  fun f idx =>
    exists mu nu kap, index4 mu /\ index4 nu /\ index4 kap /\
      f = F_conn /\ idx = [i; j; mu; nu; kap].

Definition geom_slots (n1 n2 : Z) : Slots :=
  fun f idx =>
    exists i j loc, 0 <= i < n1 /\ 0 <= j < n2 /\ 0 <= loc < NLOC /\
      geom_slots_at loc i j f idx.

Definition conn_slots (n1 n2 : Z) : Slots :=
  fun f idx =>
    exists i j, 0 <= i < n1 /\ 0 <= j < n2 /\ conn_slots_at i j f idx.

(** The views have the shape [init_grids] allocates them with. *)
Definition shaped (G : Grid) : Prop :=
  extent (gcon_direct G) = [NLOC; gn1 G; gn2 G; NDIM; NDIM] /\
  extent (gcov_direct G) = [NLOC; gn1 G; gn2 G; NDIM; NDIM] /\
  extent (gdet_direct G) = [NLOC; gn1 G; gn2 G] /\
  extent (conn_direct G) = [gn1 G; gn2 G; NDIM; NDIM; NDIM].

(** The grid handed to the kernels: the members set, the views allocated. *)
Definition allocated (G : Grid) : Grid :=
  let G := set_gcon_direct G (view_alloc [NLOC; gn1 G; gn2 G; NDIM; NDIM]) in
  let G := set_gcov_direct G (view_alloc [NLOC; gn1 G; gn2 G; NDIM; NDIM]) in
  let G := set_gdet_direct G (view_alloc [NLOC; gn1 G; gn2 G]) in
  set_conn_direct G (view_alloc [gn1 G; gn2 G; NDIM; NDIM; NDIM]).

(** Every cell a launch of the two kernels writes. *)
Definition block_slots (n1 n2 : Z) : Slots :=
  fun f idx => geom_slots n1 n2 f idx \/ conn_slots n1 n2 f idx.

(** Two mesh blocks with the same arrays on the first two axes, and
    third-axis arrays that agree at index 0. *)
Definition agree_up_to_third_axis (pmb pmb' : MeshBlock) : Prop :=
  pc_x1f (pcoord pmb) = pc_x1f (pcoord pmb') /\
  pc_x1v (pcoord pmb) = pc_x1v (pcoord pmb') /\
  pc_x2f (pcoord pmb) = pc_x2f (pcoord pmb') /\
  pc_x2v (pcoord pmb) = pc_x2v (pcoord pmb') /\
  pc_x3f (pcoord pmb) 0 = pc_x3f (pcoord pmb') 0 /\
  pc_x3v (pcoord pmb) 0 = pc_x3v (pcoord pmb') 0.

(** ** Sample data *)

(** A mesh block with unit zones: faces at the integers, centres half a
    zone further. *)
Definition unit_block : MeshBlock :=
  let xf : ParArrayND := fun n => IZR n in
  let xv : ParArrayND := fun n => (IZR n + / 2)%R in
  mkMeshBlock (mkCoordinates xf xf xf xv xv xv).

(** The same block with other third-axis arrays that agree with it at 0. *)
Definition sheared_block : MeshBlock :=
  let xf : ParArrayND := fun n => IZR n in
  let xv : ParArrayND := fun n => (IZR n + / 2)%R in
  let yf : ParArrayND := fun n => IZR (3 * n) in
  let yv : ParArrayND := fun n => (IZR (5 * n) + / 2)%R in
  mkMeshBlock (mkCoordinates xf xf yf xv xv yv).

(** An embedding with the Minkowski metric everywhere. *)
Definition minkowski_embedding : CoordinateEmbedding :=
  mkCoordinateEmbedding
    (fun X => X)
    (fun _ => minkowski_matrix)
    (fun _ => (1%R, minkowski_matrix))
    (fun _ => zero_tensor).

(** ** Vocabulary of the further properties *)

(** Raising followed by lowering, at one zone and location. *)
Definition lower_raise (cfg : Config) (G : Grid) (v out1 out2 : Vec4)
    (i j k : Z) (loc : Loci) : option Vec4 :=
  w <- raise cfg G v out1 i j k loc ;; lower cfg G w out2 i j k loc.

Definition vadd (u v : Vec4) : Vec4 :=
  mkArr4 (e0 u + e0 v)%R (e1 u + e1 v)%R (e2 u + e2 v)%R (e3 u + e3 v)%R.

Definition vscale (a : Real) (v : Vec4) : Vec4 :=
  mkArr4 (a * e0 v)%R (a * e1 v)%R (a * e2 v)%R (a * e3 v)%R.

(** The cells [Q] read the same in [G'] as in [G]; a command keeps [Q] when
    every run of it that returns leaves them so. *)
Definition untouched (Q : Slots) (G G' : Grid) : Prop :=
  forall f idx, Q f idx ->
    view_read (view_of f G') idx = view_read (view_of f G) idx.

Definition keeps (Q : Slots) (c : Grid -> option Grid) : Prop :=
  forall G G', c G = Some G' -> untouched Q G G'.

(** The cells that do not belong to zone (i,j) in the metric pass (the whole
    connection view, and the metric cells of the other zones), respectively
    in the connection pass. *)
Definition off_zone_geom (i j : Z) : Slots :=
  fun f idx => f = F_conn \/ forall loc rest, idx <> loc :: i :: j :: rest.

Definition off_zone_conn (i j : Z) : Slots :=
  fun f idx => f <> F_conn \/ forall rest, idx <> i :: j :: rest.

(** Two orders for the iterations of a launch over 2x1 zones. *)
Definition rows_up : list (Z * Z) := [(0, 0); (1, 0)].
Definition rows_down : list (Z * Z) := [(1, 0); (0, 0)].

(** * Properties *)

(** ** Loops *)

Lemma range_In (lo hi i : Z) : In i (range lo hi) <-> lo <= i < hi.
Proof.
  unfold range. rewrite in_map_iff. split.
  - intros [n [Heq Hn]]. subst i. apply in_seq in Hn. lia.
  - intros H. exists (Z.to_nat (i - lo)). split; [lia|].
    apply in_seq. lia.
Qed.

Lemma for_range_unroll4 {S : Type} (body : Z -> S -> option S) (s : S) :
  for_range 0 NDIM body s =
  (s <- body 0 s ;; s <- body 1 s ;; s <- body 2 s ;; s <- body 3 s ;; Some s).
Proof. reflexivity. Qed.

(** ** The flat-analytic accessors *)

Lemma flat_component_minkowski (mu nu : Z) :
  flat_component mu nu = minkowski mu nu.
Proof.
  unfold flat_component, minkowski.
  destruct (Z.eqb_spec mu nu) as [Heq|Hne].
  - subst mu. destruct (Z.eqb_spec nu 0) as [Hz|Hz]; [subst nu|]; reflexivity.
  - destruct (Z.eqb_spec mu 0), (Z.eqb_spec nu 0); subst;
      try contradiction; reflexivity.
Qed.

Lemma minkowski_matrix_components (mu nu : Z) :
  index4 mu -> index4 nu ->
  rd2 minkowski_matrix mu nu = Some (minkowski mu nu).
Proof.
  unfold index4, NDIM. intros Hmu Hnu.
  assert (Hm : mu = 0 \/ mu = 1 \/ mu = 2 \/ mu = 3) by lia.
  assert (Hn : nu = 0 \/ nu = 1 \/ nu = 2 \/ nu = 3) by lia.
  destruct Hm as [?|[?|[?|?]]]; destruct Hn as [?|[?|[?|?]]]; subst;
    reflexivity.
Qed.

(** C1. Under [FAST_CARTESIAN], whatever the grid, the location and the
    indices: [gcov] and [gcon] return the Minkowski component (-1 at
    mu = nu = 0, +1 at mu = nu <> 0, 0 elsewhere), [gdet] returns 1, [conn]
    returns 0, and the whole-tensor overloads fill their array with
    diag(-1,+1,+1,+1), respectively with zeros, whatever it held. *)
Theorem flat_analytic_accessors :
  forall (nc : bool) (G : Grid) (loc : Loci) (i j mu nu lam : Z)
         (out2 : Mat4) (out3 : Ten3),
    gcov (mkConfig true nc) G loc i j mu nu = Some (minkowski mu nu) /\
    gcon (mkConfig true nc) G loc i j mu nu = Some (minkowski mu nu) /\
    gdet (mkConfig true nc) G loc i j = Some 1%R /\
    conn (mkConfig true nc) G i j mu nu lam = Some 0%R /\
    gcov_full (mkConfig true nc) G loc i j out2 = Some minkowski_matrix /\
    gcon_full (mkConfig true nc) G loc i j out2 = Some minkowski_matrix /\
    conn_full (mkConfig true nc) G i j out3 = Some zero_tensor.
Proof.
  intros. unfold gcov, gcon, gdet, conn. simpl.
  rewrite flat_component_minkowski.
  repeat split; reflexivity.
Qed.

(** ** Native coordinates *)

(** C2. [coord] always returns; the time component is 0 and each spatial
    component comes from the face array of its axis when the location
    staggers that axis, from the array of centres otherwise.  In particular
    the coordinates at [face1] are those at [center] with the first spatial
    component replaced by [x1f(i)]. *)
Theorem coord_selects_arrays :
  forall (G : Grid) (i j k : Z) (loc : Loci) (X : Vec4),
    coord G i j k loc X =
      Some (mkArr4 0%R
              (pick (staggers 1 loc) (x1f G) (x1v G) i)
              (pick (staggers 2 loc) (x2f G) (x2v G) j)
              (pick (staggers 3 loc) (x3f G) (x3v G) k)) /\
    coord G i j k center X = Some (mkArr4 0%R (x1v G i) (x2v G j) (x3v G k)) /\
    coord G i j k face1 X = Some (mkArr4 0%R (x1f G i) (x2v G j) (x3v G k)) /\
    coord G i j k face2 X = Some (mkArr4 0%R (x1v G i) (x2f G j) (x3v G k)) /\
    coord G i j k face3 X = Some (mkArr4 0%R (x1v G i) (x2v G j) (x3f G k)) /\
    coord G i j k corner X = Some (mkArr4 0%R (x1f G i) (x2f G j) (x3f G k)).
Proof.
  intros. repeat split; try reflexivity.
  destruct loc; reflexivity.
Qed.

Lemma coord_returns (G : Grid) (i j k : Z) (loc : Loci) (X : Vec4) :
  exists Y, coord G i j k loc X = Some Y.
Proof. destruct loc; eexists; reflexivity. Qed.

(** ** Lowering and raising *)

(** The loop pair shared by [lower] and [raise], over any accessor. *)
Lemma contraction_loops (f : Z -> Z -> option Real) (v out : Vec4) :
  (acc <- DLOOP1 (fun mu acc => wr acc mu (IZR 0)) out ;;
   DLOOP2 (fun mu nu acc =>
     g <- f mu nu ;;
     x <- rd v nu ;;
     a <- rd acc mu ;;
     wr acc mu (a + g * x)%R) acc) =
  (g <- tabulate2 f ;; Some (mat_vec g v)).
Proof.
  unfold tabulate2, DLOOP2, DLOOP1.
  repeat first
    [ rewrite for_range_unroll4
    | progress cbn [bind wr2 wr rd2 rd e0 e1 e2 e3 zero_matrix zero_vector]
    | match goal with
      | |- context [f ?a ?b] => destruct (f a b); [|reflexivity]
      end ].
  unfold mat_vec, dot; cbn [e0 e1 e2 e3].
  f_equal. f_equal; ring.
Qed.

Lemma tabulate_reads (f : Z -> Z -> option Real) (g out : Mat4) :
  (forall mu nu, index4 mu -> index4 nu -> f mu nu = rd2 g mu nu) ->
  DLOOP2 (fun mu nu m => x <- f mu nu ;; wr2 m mu nu x) out = Some g.
Proof.
  intros H. unfold DLOOP2.
  repeat first
    [ rewrite for_range_unroll4
    | rewrite H by (unfold index4, NDIM; lia)
    | progress cbn [bind wr2 wr rd2 rd e0 e1 e2 e3] ].
  destruct g as [[? ? ? ?] [? ? ? ?] [? ? ? ?] [? ? ? ?]]. reflexivity.
Qed.

Lemma tabulate3_reads (f : Z -> Z -> Z -> option Real) (c out : Ten3) :
  (forall mu nu lam, index4 mu -> index4 nu -> index4 lam ->
     f mu nu lam = rd3 c mu nu lam) ->
  DLOOP3 (fun mu nu lam t => x <- f mu nu lam ;; wr3 t mu nu lam x) out
  = Some c.
Proof.
  intros H. unfold DLOOP3.
  repeat first
    [ rewrite for_range_unroll4
    | rewrite H by (unfold index4, NDIM; lia)
    | progress cbn [bind wr3 rd3 wr2 wr rd2 rd e0 e1 e2 e3] ].
  destruct c as [[[? ? ? ?] [? ? ? ?] [? ? ? ?] [? ? ? ?]]
                 [[? ? ? ?] [? ? ? ?] [? ? ? ?] [? ? ? ?]]
                 [[? ? ? ?] [? ? ? ?] [? ? ? ?] [? ? ? ?]]
                 [[? ? ? ?] [? ? ? ?] [? ? ? ?] [? ? ? ?]]].
  reflexivity.
Qed.

(** C3. [lower] returns the contraction of the covariant metric, as the
    accessor [gcov] gives it at (loc,i,j), with [vcon]:
    vcov[mu] = sum_nu gcov(loc,i,j,mu,nu) * vcon[nu]; [raise] does the same
    with [gcon].  The result is a function of the arguments alone: what the
    output array held before does not matter, and a component that the
    accessor cannot deliver leaves the whole call without a result.  In
    particular, when the accessor returns the components of a matrix, the
    result is the product of that matrix with the input. *)
Theorem lower_raise_contract :
  forall (cfg : Config) (G : Grid) (vin vout : Vec4) (i j k : Z) (loc : Loci),
    lower cfg G vin vout i j k loc =
      (g <- tabulate2 (gcov cfg G loc i j) ;; Some (mat_vec g vin)) /\
    raise cfg G vin vout i j k loc =
      (h <- tabulate2 (gcon cfg G loc i j) ;; Some (mat_vec h vin)) /\
    (forall g,
       (forall mu nu, index4 mu -> index4 nu ->
          gcov cfg G loc i j mu nu = rd2 g mu nu) ->
       lower cfg G vin vout i j k loc = Some (mat_vec g vin)) /\
    (forall h,
       (forall mu nu, index4 mu -> index4 nu ->
          gcon cfg G loc i j mu nu = rd2 h mu nu) ->
       raise cfg G vin vout i j k loc = Some (mat_vec h vin)).
Proof.
  intros. split; [|split; [|split]].
  - unfold lower. apply contraction_loops.
  - unfold raise. apply contraction_loops.
  - intros g Hg. unfold lower. rewrite contraction_loops.
    unfold tabulate2. rewrite (tabulate_reads _ g) by exact Hg. reflexivity.
  - intros h Hh. unfold raise. rewrite contraction_loops.
    unfold tabulate2. rewrite (tabulate_reads _ h) by exact Hh. reflexivity.
Qed.

Lemma lower_raise_contract_witness :
  (forall mu nu, index4 mu -> index4 nu ->
     gcov shipped_config (Grid_flat unit_block) face1 2 2 mu nu =
     rd2 minkowski_matrix mu nu) /\
  lower shipped_config (Grid_flat unit_block) (mkArr4 1%R 2%R 3%R 4%R)
    zero_vector 2 2 0 face1
  = Some (mat_vec minkowski_matrix (mkArr4 1%R 2%R 3%R 4%R)).
Proof.
  assert (H : forall mu nu, index4 mu -> index4 nu ->
            gcov shipped_config (Grid_flat unit_block) face1 2 2 mu nu =
            rd2 minkowski_matrix mu nu).
  { intros mu nu Hmu Hnu.
    rewrite minkowski_matrix_components by assumption.
    unfold gcov. cbn [shipped_config FAST_CARTESIAN].
    rewrite flat_component_minkowski. reflexivity. }
  split; [exact H|].
  apply (proj1 (proj2 (proj2
           (lower_raise_contract shipped_config (Grid_flat unit_block)
              (mkArr4 1%R 2%R 3%R 4%R) zero_vector 2 2 0 face1)))).
  exact H.
Defined.

(** ** The metric and its inverse *)

Lemma mat_vec_mul (a b : Mat4) (v : Vec4) :
  mat_vec a (mat_vec b v) = mat_vec (mat_mul a b) v.
Proof.
  unfold mat_vec, mat_mul, column, dot; cbn [e0 e1 e2 e3].
  f_equal; ring.
Qed.

Lemma mat_vec_identity (v : Vec4) : mat_vec identity_matrix v = v.
Proof.
  destruct v as [a b c d].
  unfold mat_vec, identity_matrix, dot; cbn [e0 e1 e2 e3].
  f_equal; ring.
Qed.

Lemma minkowski_self_inverse : inverse_of minkowski_matrix minkowski_matrix.
Proof.
  assert (H : mat_mul minkowski_matrix minkowski_matrix = identity_matrix).
  { unfold mat_mul, minkowski_matrix, identity_matrix, column, dot;
      cbn [e0 e1 e2 e3].
    f_equal; f_equal; ring. }
  split; exact H.
Qed.

Lemma flat_metric_invertible (nc : bool) (G : Grid) (loc : Loci) (i j : Z) :
  metric_invertible_at (mkConfig true nc) G loc i j.
Proof.
  exists minkowski_matrix, minkowski_matrix.
  split; [reflexivity|]. split; [reflexivity|].
  exact minkowski_self_inverse.
Qed.

Lemma raise_lower_of_inverse (cfg : Config) (G : Grid) (v out1 out2 : Vec4)
    (i j k : Z) (loc : Loci) :
  metric_invertible_at cfg G loc i j ->
  raise_lower cfg G v out1 out2 i j k loc = Some v.
Proof.
  intros (g & h & Hg & Hh & _ & Hhg).
  unfold raise_lower, lower, raise.
  rewrite contraction_loops, Hg. cbn [bind].
  rewrite contraction_loops, Hh. cbn [bind].
  rewrite mat_vec_mul, Hhg, mat_vec_identity. reflexivity.
Qed.

(** ** Filling the cache: a small logic of writes *)

Lemma Field_eq_dec (f g : Field) : {f = g} + {f <> g}.
Proof. decide equality. Qed.

Lemma view_of_set_view_same (f : Field) (G : Grid) (v : View) :
  view_of f (set_view f G v) = v.
Proof. destruct f; reflexivity. Qed.

Lemma view_of_set_view_other (f f' : Field) (G : Grid) (v : View) :
  f' <> f -> view_of f' (set_view f G v) = view_of f' G.
Proof. destruct f, f'; intros H; try reflexivity; contradiction. Qed.

Lemma same_frame_refl (G : Grid) : same_frame G G.
Proof. unfold same_frame. repeat split; reflexivity. Qed.

Lemma same_frame_set_view (Gc G : Grid) (f : Field) (v : View) :
  same_frame Gc G ->
  extent v = extent (view_of f G) ->
  same_frame Gc (set_view f G v).
Proof.
  intros (H1 & H2 & H3 & H4 & H5 & H6 & H7 & H8 & H9 & Hext) Hv.
  unfold same_frame.
  repeat (split; [destruct f; assumption|]).
  intros f'. destruct (Field_eq_dec f' f) as [Heq|Hne].
  - subst f'. rewrite view_of_set_view_same, Hv. apply Hext.
  - rewrite view_of_set_view_other by assumption. apply Hext.
Qed.

Lemma fill_inv_weaken (Gc : Grid) (cs : CoordinateEmbedding) (D D' : Slots)
    (G : Grid) :
  (forall f idx, D' f idx -> D f idx) ->
  fill_inv Gc cs D G -> fill_inv Gc cs D' G.
Proof.
  intros Hsub [Hfr Hfill]. split; [assumption|].
  intros f idx Hd. apply Hfill, Hsub, Hd.
Qed.

Lemma fills_weaken (Gc : Grid) (cs : CoordinateEmbedding) (E E' : Slots)
    (c : Grid -> option Grid) :
  (forall f idx, E' f idx -> E f idx) ->
  fills Gc cs E c -> fills Gc cs E' c.
Proof.
  intros Hsub Hc D G HI.
  destruct (Hc D G HI) as (G' & Hrun & HI').
  exists G'. split; [assumption|].
  apply fill_inv_weaken with (2 := HI').
  intros f idx [Hd|He]; [left; assumption | right; apply Hsub, He].
Qed.

Lemma fills_ext (Gc : Grid) (cs : CoordinateEmbedding) (E : Slots)
    (c c' : Grid -> option Grid) :
  (forall G, c' G = c G) ->
  fills Gc cs E c -> fills Gc cs E c'.
Proof.
  intros Heq Hc D G HI. rewrite Heq. apply Hc, HI.
Qed.

Lemma fills_seq (Gc : Grid) (cs : CoordinateEmbedding) (E1 E2 : Slots)
    (c1 c2 : Grid -> option Grid) :
  fills Gc cs E1 c1 -> fills Gc cs E2 c2 ->
  fills Gc cs (fun f idx => E1 f idx \/ E2 f idx)
        (fun G => G1 <- c1 G ;; c2 G1).
Proof.
  intros H1 H2 D G HI.
  destruct (H1 D G HI) as (G1 & Hrun1 & HI1).
  destruct (H2 _ G1 HI1) as (G2 & Hrun2 & HI2).
  exists G2. rewrite Hrun1. cbn [bind]. split; [assumption|].
  apply fill_inv_weaken with (2 := HI2).
  intros f idx [Hd|[He|He]]; auto.
Qed.

Lemma fills_for_each {I : Type} (Gc : Grid) (cs : CoordinateEmbedding)
    (E : I -> Slots) (body : I -> Grid -> option Grid) (l : list I) :
  (forall i, In i l -> fills Gc cs (E i) (body i)) ->
  fills Gc cs (fun f idx => exists i, In i l /\ E i f idx) (for_each l body).
Proof.
  induction l as [|i l IH]; intros Hbody D G HI.
  - exists G. split; [reflexivity|].
    apply fill_inv_weaken with (2 := HI).
    intros f idx [Hd|(i & [] & _)]. assumption.
  - destruct (Hbody i (or_introl eq_refl) D G HI) as (G1 & Hrun1 & HI1).
    assert (Htail : forall i', In i' l -> fills Gc cs (E i') (body i'))
      by (intros i' Hi'; apply Hbody; right; assumption).
    destruct (IH Htail _ G1 HI1) as (G2 & Hrun2 & HI2).
    exists G2. cbn [for_each]. rewrite Hrun1. cbn [bind].
    split; [assumption|].
    apply fill_inv_weaken with (2 := HI2).
    intros f idx [Hd|(i' & [Heq|Hin] & He)].
    + left; left; assumption.
    + subst i'. left; right; assumption.
    + right. exists i'. split; assumption.
Qed.

Lemma fills_for_range (Gc : Grid) (cs : CoordinateEmbedding)
    (E : Z -> Slots) (body : Z -> Grid -> option Grid) (lo hi : Z) :
  (forall i, lo <= i < hi -> fills Gc cs (E i) (body i)) ->
  fills Gc cs (fun f idx => exists i, lo <= i < hi /\ E i f idx)
        (for_range lo hi body).
Proof.
  intros Hbody. unfold for_range.
  apply fills_weaken with
    (E := fun f idx => exists i, In i (range lo hi) /\ E i f idx).
  - intros f idx (i & Hi & He). exists i. split; [apply range_In|]; assumption.
  - apply fills_for_each. intros i Hi. apply Hbody, range_In, Hi.
Qed.

Lemma fills_write_slot (Gc : Grid) (cs : CoordinateEmbedding) (f : Field)
    (idx : list Z) (x : Real) :
  cache_target Gc cs f idx = Some x ->
  in_bounds idx (extent (view_of f Gc)) = true ->
  fills Gc cs (one_slot f idx) (write_slot f idx x).
Proof.
  intros Htarget Hin D G [Hfr Hfill].
  assert (Hext : forall f', extent (view_of f' G) = extent (view_of f' Gc))
    by apply Hfr.
  unfold write_slot, view_write. rewrite Hext, Hin. cbn [bind].
  eexists. split; [reflexivity|]. split.
  - apply same_frame_set_view; [assumption|].
    cbn [extent]. symmetry. apply Hext.
  - intros f' idx' Hslot.
    destruct (Field_eq_dec f' f) as [Heqf|Hnef].
    + subst f'. rewrite view_of_set_view_same.
      unfold view_read; cbn [extent cell].
      destruct (list_eq_dec Z.eq_dec idx' idx) as [Heqi|Hnei].
      * subst idx'. exists x. rewrite Hin. split; [assumption|reflexivity].
      * destruct Hslot as [Hd|[_ He]]; [|contradiction].
        destruct (Hfill f idx' Hd) as (v & Hv & Hread).
        exists v. split; [assumption|].
        unfold view_read in Hread. rewrite Hext in Hread.
        destruct (in_bounds idx' (extent (view_of f Gc))); [|discriminate].
        assumption.
    + rewrite view_of_set_view_other by assumption.
      destruct Hslot as [Hd|[He _]]; [|contradiction].
      apply Hfill, Hd.
Qed.

(** ** The two kernels *)

Ltac in_bounds_tac :=
  cbn [in_bounds]; unfold index4, in_block, NDIM, NLOC in *;
  repeat (apply andb_true_intro; split);
  try apply Z.leb_le; try apply Z.ltb_lt; try reflexivity; lia.

Lemma rd_in_range {A : Type} (a : Arr4 A) (mu : Z) :
  index4 mu -> exists x, rd a mu = Some x.
Proof.
  unfold index4, NDIM. intros H.
  assert (Hm : mu = 0 \/ mu = 1 \/ mu = 2 \/ mu = 3) by lia.
  destruct Hm as [?|[?|[?|?]]]; subst; eexists; reflexivity.
Qed.

Lemma rd2_in_range (g : Mat4) (mu nu : Z) :
  index4 mu -> index4 nu -> exists x, rd2 g mu nu = Some x.
Proof.
  intros Hmu Hnu. unfold rd2.
  destruct (rd_in_range g mu Hmu) as [row Hrow]. rewrite Hrow. cbn [bind].
  apply rd_in_range, Hnu.
Qed.

Lemma rd3_in_range (c : Ten3) (mu nu lam : Z) :
  index4 mu -> index4 nu -> index4 lam -> exists x, rd3 c mu nu lam = Some x.
Proof.
  intros Hmu Hnu Hlam. unfold rd3.
  destruct (rd_in_range c mu Hmu) as [plane Hplane]. rewrite Hplane.
  cbn [bind]. apply rd2_in_range; assumption.
Qed.

Lemma int_to_Loci_in_range (loc : Z) :
  0 <= loc < NLOC -> exists l, int_to_Loci loc = Some l /\ Loci_to_int l = loc.
Proof.
  unfold NLOC. intros H.
  assert (Hl : loc = 0 \/ loc = 1 \/ loc = 2 \/ loc = 3 \/ loc = 4) by lia.
  destruct Hl as [?|[?|[?|[?|?]]]]; subst; eexists; split; reflexivity.
Qed.

Lemma Loci_to_int_range (l : Loci) : 0 <= Loci_to_int l < NLOC.
Proof. unfold NLOC. destruct l; simpl; lia. Qed.

Lemma int_to_Loci_to_int (l : Loci) : int_to_Loci (Loci_to_int l) = Some l.
Proof. destruct l; reflexivity. Qed.

Lemma geom_cell_fills (Gc : Grid) (cs : CoordinateEmbedding)
    (loc i j mu nu : Z) (l : Loci) (X : Vec4) :
  shaped Gc -> 0 <= loc < NLOC -> in_block Gc i j ->
  index4 mu -> index4 nu ->
  int_to_Loci loc = Some l -> native_at Gc i j l = Some X ->
  fills Gc cs
    (fun f idx => (f = F_gcov \/ f = F_gcon) /\ idx = [loc; i; j; mu; nu])
    (fun G =>
       c <- rd2 (gcov_native cs X) mu nu ;;
       gcov_local <- view_write (gcov_direct G) [loc; i; j; mu; nu] c ;;
       let G := set_gcov_direct G gcov_local in
       c <- rd2 (snd (gcon_native cs (gcov_native cs X))) mu nu ;;
       gcon_local <- view_write (gcon_direct G) [loc; i; j; mu; nu] c ;;
       Some (set_gcon_direct G gcon_local)).
Proof.
  intros (Hcon & Hcov & _ & _) Hloc Hij Hmu Hnu Hl HX.
  destruct (rd2_in_range (gcov_native cs X) mu nu Hmu Hnu) as [c1 Hc1].
  destruct (rd2_in_range (snd (gcon_native cs (gcov_native cs X))) mu nu
              Hmu Hnu) as [c2 Hc2].
  apply fills_ext with
    (c := fun G => G1 <- write_slot F_gcov [loc; i; j; mu; nu] c1 G ;;
                   write_slot F_gcon [loc; i; j; mu; nu] c2 G1).
  { intros G. rewrite Hc1, Hc2. unfold write_slot.
    cbn [bind view_of set_view].
    destruct (view_write (gcov_direct G) [loc; i; j; mu; nu] c1);
      reflexivity. }
  apply fills_weaken with
    (E := fun f idx => one_slot F_gcov [loc; i; j; mu; nu] f idx \/
                       one_slot F_gcon [loc; i; j; mu; nu] f idx).
  { unfold one_slot. intros f idx [[Hf|Hf] Hidx]; auto. }
  apply fills_seq; apply fills_write_slot.
  - unfold cache_target, metric_at. rewrite Hl. cbn [bind]. rewrite HX.
    exact Hc1.
  - cbn [view_of]. rewrite Hcov. in_bounds_tac.
  - unfold cache_target, inverse_at, metric_at. rewrite Hl. cbn [bind].
    rewrite HX. exact Hc2.
  - cbn [view_of]. rewrite Hcon. in_bounds_tac.
Qed.

Lemma init_geom_body_fills (Gc : Grid) (cs : CoordinateEmbedding) (i j : Z) :
  shaped Gc -> in_block Gc i j ->
  fills Gc cs
    (fun f idx => exists loc, 0 <= loc < NLOC /\ geom_slots_at loc i j f idx)
    (init_geom_body Gc cs i j).
Proof.
  intros Hshape Hij. unfold init_geom_body.
  apply fills_for_range. intros loc Hloc.
  destruct (int_to_Loci_in_range loc Hloc) as (l & Hl & _).
  destruct (coord_returns Gc i j 0 l local_Vec4) as [X HX].
  apply fills_ext with
    (c := fun G =>
       G1 <- write_slot F_gdet [loc; i; j]
               (fst (gcon_native cs (gcov_native cs X))) G ;;
       DLOOP2 (fun mu nu G =>
         c <- rd2 (gcov_native cs X) mu nu ;;
         gcov_local <- view_write (gcov_direct G) [loc; i; j; mu; nu] c ;;
         let G := set_gcov_direct G gcov_local in
         c <- rd2 (snd (gcon_native cs (gcov_native cs X))) mu nu ;;
         gcon_local <- view_write (gcon_direct G) [loc; i; j; mu; nu] c ;;
         Some (set_gcon_direct G gcon_local)) G1).
  { intros G. rewrite Hl. cbn [bind]. rewrite HX. cbn [bind].
    destruct (gcon_native cs (gcov_native cs X)) as [det gcon_loc].
    cbn [fst snd]. unfold write_slot. cbn [bind view_of set_view].
    destruct (view_write (gdet_direct G) [loc; i; j] det); reflexivity. }
  apply fills_weaken with
    (E := fun f idx =>
       one_slot F_gdet [loc; i; j] f idx \/
       exists mu, 0 <= mu < NDIM /\ exists nu, 0 <= nu < NDIM /\
         (f = F_gcov \/ f = F_gcon) /\ idx = [loc; i; j; mu; nu]).
  { intros f idx [Hdet|(mu & nu & Hmu & Hnu & Hf & Hidx)].
    - left. exact Hdet.
    - right. exists mu. split; [exact Hmu|]. exists nu. auto. }
  apply fills_seq.
  - apply fills_write_slot.
    + unfold cache_target, scalar_at, metric_at, native_at. rewrite Hl.
      cbn [bind]. rewrite HX. reflexivity.
    + destruct Hshape as (_ & _ & Hdet & _). cbn [view_of]. rewrite Hdet.
      in_bounds_tac.
  - unfold DLOOP2.
    apply fills_for_range. intros mu Hmu.
    apply fills_for_range. intros nu Hnu.
    apply geom_cell_fills with (l := l); assumption.
Qed.

Lemma init_conn_body_fills (Gc : Grid) (cs : CoordinateEmbedding) (i j : Z) :
  shaped Gc -> in_block Gc i j ->
  fills Gc cs (conn_slots_at i j) (init_conn_body Gc cs i j).
Proof.
  intros Hshape Hij. unfold init_conn_body.
  destruct (coord_returns Gc i j 0 center local_Vec4) as [X HX].
  rewrite HX.
  apply fills_ext with
    (c := DLOOP2 (fun mu nu =>
       for_range 0 NDIM (fun kap G =>
         c <- rd3 (conn_func cs X) mu nu kap ;;
         conn_local <- view_write (conn_direct G) [i; j; mu; nu; kap] c ;;
         Some (set_conn_direct G conn_local)))).
  { intros G. reflexivity. }
  apply fills_weaken with
    (E := fun f idx =>
       exists mu, 0 <= mu < NDIM /\ exists nu, 0 <= nu < NDIM /\
         exists kap, 0 <= kap < NDIM /\
           one_slot F_conn [i; j; mu; nu; kap] f idx).
  { intros f idx (mu & nu & kap & Hmu & Hnu & Hkap & Hf & Hidx).
    exists mu. split; [exact Hmu|]. exists nu. split; [exact Hnu|].
    exists kap. split; [exact Hkap|]. split; assumption. }
  unfold DLOOP2.
  apply fills_for_range. intros mu Hmu.
  apply fills_for_range. intros nu Hnu.
  apply fills_for_range. intros kap Hkap.
  destruct (rd3_in_range (conn_func cs X) mu nu kap Hmu Hnu Hkap) as [c Hc].
  apply fills_ext with (c := write_slot F_conn [i; j; mu; nu; kap] c).
  { intros G. rewrite Hc. reflexivity. }
  apply fills_write_slot.
  - unfold cache_target, connection_at, native_at. rewrite HX. exact Hc.
  - destruct Hshape as (_ & _ & _ & Hconn). cbn [view_of]. rewrite Hconn.
    in_bounds_tac.
Qed.

Lemma init_geom_fills (Gc : Grid) (cs : CoordinateEmbedding) :
  shaped Gc ->
  fills Gc cs (geom_slots (gn1 Gc) (gn2 Gc))
        (parallel_for2 (gn1 Gc) (gn2 Gc) (init_geom_body Gc cs)).
Proof.
  intros Hshape. unfold parallel_for2.
  apply fills_weaken with
    (E := fun f idx =>
       exists i, 0 <= i < gn1 Gc /\ exists j, 0 <= j < gn2 Gc /\
         exists loc, 0 <= loc < NLOC /\ geom_slots_at loc i j f idx).
  { intros f idx (i & j & loc & Hi & Hj & Hloc & Hslot).
    exists i. split; [exact Hi|]. exists j. split; [exact Hj|].
    exists loc. split; assumption. }
  apply fills_for_range. intros i Hi.
  apply fills_for_range. intros j Hj.
  apply init_geom_body_fills; [assumption | split; assumption].
Qed.

Lemma init_conn_fills (Gc : Grid) (cs : CoordinateEmbedding) :
  shaped Gc ->
  fills Gc cs (conn_slots (gn1 Gc) (gn2 Gc))
        (parallel_for2 (gn1 Gc) (gn2 Gc) (init_conn_body Gc cs)).
Proof.
  intros Hshape. unfold parallel_for2.
  apply fills_weaken with
    (E := fun f idx =>
       exists i, 0 <= i < gn1 Gc /\ exists j, 0 <= j < gn2 Gc /\
         conn_slots_at i j f idx).
  { intros f idx (i & j & Hi & Hj & Hslot).
    exists i. split; [exact Hi|]. exists j. split; assumption. }
  apply fills_for_range. intros i Hi.
  apply fills_for_range. intros j Hj.
  apply init_conn_body_fills; [assumption | split; assumption].
Qed.

(** The launches in any order of their iterations. *)
Lemma init_geom_any_order (Gc : Grid) (cs : CoordinateEmbedding)
    (sched : list (Z * Z)) :
  shaped Gc -> covers (gn1 Gc) (gn2 Gc) sched ->
  fills Gc cs (geom_slots (gn1 Gc) (gn2 Gc))
        (run_schedule sched (init_geom_body Gc cs)).
Proof.
  intros Hshape Hcov. unfold run_schedule.
  apply fills_weaken with
    (E := fun f idx =>
       exists ij, In ij sched /\
         exists loc, 0 <= loc < NLOC /\
           geom_slots_at loc (fst ij) (snd ij) f idx).
  { intros f idx (i & j & loc & Hi & Hj & Hloc & Hslot).
    exists (i, j). split; [apply Hcov; split; assumption|].
    exists loc. split; assumption. }
  apply fills_for_each. intros [i j] Hin. cbn [fst snd].
  apply init_geom_body_fills; [assumption|].
  apply Hcov in Hin. exact Hin.
Qed.

Lemma init_conn_any_order (Gc : Grid) (cs : CoordinateEmbedding)
    (sched : list (Z * Z)) :
  shaped Gc -> covers (gn1 Gc) (gn2 Gc) sched ->
  fills Gc cs (conn_slots (gn1 Gc) (gn2 Gc))
        (run_schedule sched (init_conn_body Gc cs)).
Proof.
  intros Hshape Hcov. unfold run_schedule.
  apply fills_weaken with
    (E := fun f idx =>
       exists ij, In ij sched /\ conn_slots_at (fst ij) (snd ij) f idx).
  { intros f idx (i & j & Hi & Hj & Hslot).
    exists (i, j). split; [apply Hcov; split; assumption | exact Hslot]. }
  apply fills_for_each. intros [i j] Hin. cbn [fst snd].
  apply init_conn_body_fills; [assumption|].
  apply Hcov in Hin. exact Hin.
Qed.

Lemma allocated_shaped (G : Grid) : shaped (allocated G).
Proof. unfold shaped. repeat split; reflexivity. Qed.

Lemma init_grids_cached_unfold (G : Grid) :
  init_grids cached_config G =
  (cs <- coords G ;;
   G' <- parallel_for2 (gn1 (allocated G)) (gn2 (allocated G))
           (init_geom_body (allocated G) cs) (allocated G) ;;
   parallel_for2 (gn1 (allocated G)) (gn2 (allocated G))
     (init_conn_body (allocated G) cs) G').
Proof. reflexivity. Qed.

(** The caching [init_grids] returns whenever [coords] can be dereferenced,
    and leaves every cell of the block holding its target. *)
Lemma init_grids_cached_fills (G : Grid) (cs : CoordinateEmbedding) :
  coords G = Some cs ->
  exists G', init_grids cached_config G = Some G' /\
    fill_inv (allocated G) cs (block_slots (gn1 G) (gn2 G)) G'.
Proof.
  intros Hcs.
  pose proof (fills_seq _ cs _ _ _ _
                (init_geom_fills (allocated G) cs (allocated_shaped G))
                (init_conn_fills (allocated G) cs (allocated_shaped G)))
    as Hboth.
  destruct (Hboth (fun _ _ => False) (allocated G)) as (G' & Hrun & HI).
  { split; [apply same_frame_refl|]. intros f idx []. }
  exists G'. split.
  - rewrite init_grids_cached_unfold, Hcs. cbn [bind]. exact Hrun.
  - apply fill_inv_weaken with (2 := HI).
    intros f idx H. right. exact H.
Qed.

Lemma init_grids_uncached (cfg : Config) (G : Grid) :
  FAST_CARTESIAN cfg || NO_CACHE cfg = true -> init_grids cfg G = Some G.
Proof. intros H. unfold init_grids. rewrite H. reflexivity. Qed.

(** ** Reading the cache back *)

Lemma native_at_frame (Gc G : Grid) (i j : Z) (loc : Loci) :
  same_frame Gc G -> native_at G i j loc = native_at Gc i j loc.
Proof.
  intros (_ & H1 & H2 & H3 & H4 & H5 & H6 & _).
  unfold native_at, coord. rewrite H1, H2, H3, H4, H5, H6. reflexivity.
Qed.

Lemma in_bounds_cons (i n : Z) (idx ext : list Z) :
  in_bounds (i :: idx) (n :: ext) = true <->
  0 <= i < n /\ in_bounds idx ext = true.
Proof.
  cbn [in_bounds]. split.
  - intros H. apply andb_prop in H. destruct H as [H Hrest].
    apply andb_prop in H. destruct H as [Hlo Hhi].
    apply Z.leb_le in Hlo. apply Z.ltb_lt in Hhi. auto.
  - intros [[Hlo Hhi] Hrest].
    apply Z.leb_le in Hlo. apply Z.ltb_lt in Hhi.
    rewrite Hlo, Hhi, Hrest. reflexivity.
Qed.

Ltac split_index idx H :=
  destruct idx as [|a [|b [|c [|d [|e [|x rest]]]]]];
  try discriminate H;
  repeat (apply in_bounds_cons in H;
          let Hr := fresh "Hr" in destruct H as [Hr H]);
  try (cbn [in_bounds] in H; discriminate H).

(** Inside the shape of a view, every cell is one a kernel writes. *)
Lemma in_bounds_written (Gc : Grid) (f : Field) (idx : list Z) :
  shaped Gc ->
  in_bounds idx (extent (view_of f Gc)) = true ->
  geom_slots (gn1 Gc) (gn2 Gc) f idx \/ conn_slots (gn1 Gc) (gn2 Gc) f idx.
Proof.
  intros (Hcon & Hcov & Hdet & Hconn) H.
  destruct f; cbn [view_of] in H.
  - rewrite Hcon in H. split_index idx H. left.
    exists b, c, a. repeat split; try lia.
    right. exists d, e. unfold index4. repeat split; try lia. auto.
  - rewrite Hcov in H. split_index idx H. left.
    exists b, c, a. repeat split; try lia.
    right. exists d, e. unfold index4. repeat split; try lia. auto.
  - rewrite Hdet in H. split_index idx H. left.
    exists b, c, a. repeat split; try lia.
    left. auto.
  - rewrite Hconn in H. split_index idx H. right.
    exists a, b. repeat split; try lia.
    exists c, d, e. unfold index4. repeat split; lia.
Qed.

(** After the fill, a read of any view at any index is the target of the
    cell inside the shape, and undefined outside. *)
Lemma filled_view_read (Gc : Grid) (cs : CoordinateEmbedding) (G : Grid)
    (f : Field) (idx : list Z) :
  shaped Gc ->
  fill_inv Gc cs (block_slots (gn1 Gc) (gn2 Gc)) G ->
  view_read (view_of f G) idx =
    if in_bounds idx (extent (view_of f Gc))
    then cache_target Gc cs f idx else None.
Proof.
  intros Hshape [Hfr Hfill].
  assert (Hext : extent (view_of f G) = extent (view_of f Gc)) by apply Hfr.
  destruct (in_bounds idx (extent (view_of f Gc))) eqn:Hin.
  - destruct (Hfill f idx (in_bounds_written Gc f idx Hshape Hin))
      as (v & Hv & Hread).
    rewrite Hv. exact Hread.
  - unfold view_read. rewrite Hext, Hin. reflexivity.
Qed.

Lemma rd_out_of_range {A : Type} (a : Arr4 A) (mu : Z) :
  ~ index4 mu -> rd a mu = None.
Proof.
  unfold index4, NDIM. intros H.
  destruct mu as [|[[p|p|]|[p|p|]|]|p]; try reflexivity; exfalso; apply H; lia.
Qed.

Lemma rd2_out_of_range (g : Mat4) (mu nu : Z) :
  ~ (index4 mu /\ index4 nu) -> rd2 g mu nu = None.
Proof.
  intros H. unfold rd2.
  destruct (rd g mu) as [row|] eqn:Hrow; [|reflexivity]. cbn [bind].
  apply rd_out_of_range. intros Hnu. apply H. split; [|exact Hnu].
  unfold index4, NDIM.
  destruct mu as [|[[p|p|]|[p|p|]|]|p]; try discriminate Hrow; lia.
Qed.

Lemma rd3_out_of_range (c : Ten3) (mu nu lam : Z) :
  ~ (index4 mu /\ index4 nu /\ index4 lam) -> rd3 c mu nu lam = None.
Proof.
  intros H. unfold rd3.
  destruct (rd c mu) as [plane|] eqn:Hplane; [|reflexivity]. cbn [bind].
  apply rd2_out_of_range. intros [Hnu Hlam]. apply H. split; [|auto].
  unfold index4, NDIM.
  destruct mu as [|[[p|p|]|[p|p|]|]|p]; try discriminate Hplane; lia.
Qed.

Section CachedGrid.

Variables (Gc G : Grid) (cs : CoordinateEmbedding).
Hypothesis Hshape : shaped Gc.
Hypothesis Hfill :
  fill_inv Gc cs (block_slots (gn1 Gc) (gn2 Gc)) G.

Lemma metric_at_frame (i j : Z) (loc : Loci) :
  metric_at G cs i j loc = metric_at Gc cs i j loc.
Proof.
  unfold metric_at. rewrite (native_at_frame Gc G) by apply Hfill.
  reflexivity.
Qed.

Lemma cached_gcov_component (loc : Loci) (i j mu nu : Z) :
  in_block Gc i j ->
  gcov cached_config G loc i j mu nu =
    (g <- metric_at G cs i j loc ;; rd2 g mu nu).
Proof.
  intros Hij. rewrite metric_at_frame.
  change (gcov cached_config G loc i j mu nu)
    with (view_read (view_of F_gcov G) [Loci_to_int loc; i; j; mu; nu]).
  rewrite (filled_view_read Gc cs G) by assumption.
  destruct (in_bounds _ _) eqn:Hin.
  - cbn [cache_target]. rewrite int_to_Loci_to_int. reflexivity.
  - unfold metric_at.
    destruct (coord_returns Gc i j 0 loc local_Vec4) as [X HX].
    unfold native_at. rewrite HX. cbn [bind].
    symmetry. apply rd2_out_of_range. intros [Hmu Hnu].
    destruct Hshape as (_ & Hcov & _). cbn [view_of] in Hin.
    rewrite Hcov in Hin. pose proof (Loci_to_int_range loc) as Hloc.
    assert (Hin' : in_bounds [Loci_to_int loc; i; j; mu; nu]
                     [NLOC; gn1 Gc; gn2 Gc; NDIM; NDIM] = true)
      by in_bounds_tac.
    congruence.
Qed.

Lemma cached_gcon_component (loc : Loci) (i j mu nu : Z) :
  in_block Gc i j ->
  gcon cached_config G loc i j mu nu =
    (h <- inverse_at G cs i j loc ;; rd2 h mu nu).
Proof.
  intros Hij. unfold inverse_at. rewrite metric_at_frame.
  change (gcon cached_config G loc i j mu nu)
    with (view_read (view_of F_gcon G) [Loci_to_int loc; i; j; mu; nu]).
  rewrite (filled_view_read Gc cs G) by assumption.
  destruct (in_bounds _ _) eqn:Hin.
  - cbn [cache_target]. rewrite int_to_Loci_to_int. reflexivity.
  - unfold metric_at.
    destruct (coord_returns Gc i j 0 loc local_Vec4) as [X HX].
    unfold native_at. rewrite HX. cbn [bind].
    symmetry. apply rd2_out_of_range. intros [Hmu Hnu].
    destruct Hshape as (Hcon & _). cbn [view_of] in Hin.
    rewrite Hcon in Hin. pose proof (Loci_to_int_range loc) as Hloc.
    assert (Hin' : in_bounds [Loci_to_int loc; i; j; mu; nu]
                     [NLOC; gn1 Gc; gn2 Gc; NDIM; NDIM] = true)
      by in_bounds_tac.
    congruence.
Qed.

Lemma cached_gdet_value (loc : Loci) (i j : Z) :
  in_block Gc i j ->
  gdet cached_config G loc i j = scalar_at G cs i j loc.
Proof.
  intros Hij. unfold scalar_at. rewrite metric_at_frame.
  change (gdet cached_config G loc i j)
    with (view_read (view_of F_gdet G) [Loci_to_int loc; i; j]).
  rewrite (filled_view_read Gc cs G) by assumption.
  destruct (in_bounds _ _) eqn:Hin.
  - cbn [cache_target]. rewrite int_to_Loci_to_int. reflexivity.
  - exfalso.
    destruct Hshape as (_ & _ & Hdet & _). cbn [view_of] in Hin.
    rewrite Hdet in Hin. pose proof (Loci_to_int_range loc) as Hloc.
    assert (Hin' : in_bounds [Loci_to_int loc; i; j]
                     [NLOC; gn1 Gc; gn2 Gc] = true)
      by in_bounds_tac.
    congruence.
Qed.

Lemma cached_conn_component (i j mu nu lam : Z) :
  in_block Gc i j ->
  conn cached_config G i j mu nu lam =
    (c <- connection_at G cs i j ;; rd3 c mu nu lam).
Proof.
  intros Hij. unfold connection_at.
  rewrite (native_at_frame Gc G) by apply Hfill.
  change (conn cached_config G i j mu nu lam)
    with (view_read (view_of F_conn G) [i; j; mu; nu; lam]).
  rewrite (filled_view_read Gc cs G) by assumption.
  destruct (in_bounds _ _) eqn:Hin.
  - reflexivity.
  - destruct (coord_returns Gc i j 0 center local_Vec4) as [X HX].
    unfold native_at. rewrite HX. cbn [bind].
    symmetry. apply rd3_out_of_range. intros (Hmu & Hnu & Hlam).
    destruct Hshape as (_ & _ & _ & Hconn). cbn [view_of] in Hin.
    rewrite Hconn in Hin.
    assert (Hin' : in_bounds [i; j; mu; nu; lam]
                     [gn1 Gc; gn2 Gc; NDIM; NDIM; NDIM] = true)
      by in_bounds_tac.
    congruence.
Qed.

Lemma cached_gcov_full (loc : Loci) (i j : Z) (out : Mat4) :
  in_block Gc i j ->
  gcov_full cached_config G loc i j out = metric_at G cs i j loc.
Proof.
  intros Hij.
  destruct (coord_returns G i j 0 loc local_Vec4) as [X HX].
  assert (Hg : metric_at G cs i j loc = Some (gcov_native cs X))
    by (unfold metric_at, native_at; rewrite HX; reflexivity).
  rewrite Hg.
  apply tabulate_reads with
    (f := fun mu nu =>
            view_read (gcov_direct G) [Loci_to_int loc; i; j; mu; nu]).
  intros mu nu _ _.
  change (view_read (gcov_direct G) [Loci_to_int loc; i; j; mu; nu])
    with (gcov cached_config G loc i j mu nu).
  rewrite cached_gcov_component, Hg by assumption. reflexivity.
Qed.

Lemma cached_gcon_full (loc : Loci) (i j : Z) (out : Mat4) :
  in_block Gc i j ->
  gcon_full cached_config G loc i j out = inverse_at G cs i j loc.
Proof.
  intros Hij.
  destruct (coord_returns G i j 0 loc local_Vec4) as [X HX].
  assert (Hh : inverse_at G cs i j loc =
               Some (snd (gcon_native cs (gcov_native cs X))))
    by (unfold inverse_at, metric_at, native_at; rewrite HX; reflexivity).
  rewrite Hh.
  apply tabulate_reads with
    (f := fun mu nu =>
            view_read (gcon_direct G) [Loci_to_int loc; i; j; mu; nu]).
  intros mu nu _ _.
  change (view_read (gcon_direct G) [Loci_to_int loc; i; j; mu; nu])
    with (gcon cached_config G loc i j mu nu).
  rewrite cached_gcon_component, Hh by assumption. reflexivity.
Qed.

Lemma cached_conn_full (i j : Z) (out : Ten3) :
  in_block Gc i j ->
  conn_full cached_config G i j out = connection_at G cs i j.
Proof.
  intros Hij.
  destruct (coord_returns G i j 0 center local_Vec4) as [X HX].
  assert (Hc : connection_at G cs i j = Some (conn_func cs X))
    by (unfold connection_at, native_at; rewrite HX; reflexivity).
  rewrite Hc.
  apply tabulate3_reads with
    (f := fun mu nu lam => view_read (conn_direct G) [i; j; mu; nu; lam]).
  intros mu nu lam _ _ _.
  change (view_read (conn_direct G) [i; j; mu; nu; lam])
    with (conn cached_config G i j mu nu lam).
  rewrite cached_conn_component, Hc by assumption. reflexivity.
Qed.

Lemma cached_metric_invertible (loc : Loci) (i j : Z) :
  inverts_own_metric cs -> in_block Gc i j ->
  metric_invertible_at cached_config G loc i j.
Proof.
  intros Hinv Hij.
  destruct (coord_returns G i j 0 loc local_Vec4) as [X HX].
  assert (Hg : metric_at G cs i j loc = Some (gcov_native cs X))
    by (unfold metric_at, native_at; rewrite HX; reflexivity).
  assert (Hh : inverse_at G cs i j loc =
               Some (snd (gcon_native cs (gcov_native cs X))))
    by (unfold inverse_at; rewrite Hg; reflexivity).
  exists (gcov_native cs X), (snd (gcon_native cs (gcov_native cs X))).
  split; [|split].
  - apply tabulate_reads. intros mu nu _ _.
    rewrite cached_gcov_component, Hg by assumption. reflexivity.
  - apply tabulate_reads. intros mu nu _ _.
    rewrite cached_gcon_component, Hh by assumption. reflexivity.
  - apply Hinv.
Qed.

End CachedGrid.

(** ** The constructors *)

Lemma Grid_embedded_cached (n1 n2 : Z) (cs : CoordinateEmbedding)
    (pmb : MeshBlock) :
  exists G,
    Grid_embedded cached_config n1 n2 (Some cs) pmb = Some G /\
    fill_inv (allocated (assigned n1 n2 (Some cs) pmb)) cs
             (block_slots n1 n2) G.
Proof.
  apply (init_grids_cached_fills (assigned n1 n2 (Some cs) pmb) cs).
  reflexivity.
Qed.

Lemma Grid_embedded_coords (cfg : Config) (n1 n2 : Z)
    (cs : CoordinateEmbedding) (pmb : MeshBlock) (G : Grid) :
  Grid_embedded cfg n1 n2 (Some cs) pmb = Some G -> coords G = Some cs.
Proof.
  intros H. destruct cfg as [[|] [|]];
    try (unfold Grid_embedded in H; rewrite init_grids_uncached in H
           by reflexivity;
         injection H as H; subst G; reflexivity).
  destruct (Grid_embedded_cached n1 n2 cs pmb) as (G' & Hrun & Hfr & _).
  change (mkConfig false false) with cached_config in H.
  rewrite Hrun in H. injection H as H. subst G'.
  destruct Hfr as (Hc & _). exact Hc.
Qed.

Lemma lower_flat (nc : bool) (G : Grid) (v out : Vec4) (i j k : Z)
    (loc : Loci) :
  lower (mkConfig true nc) G v out i j k loc =
    Some (mkArr4 (- e0 v)%R (e1 v) (e2 v) (e3 v)).
Proof.
  unfold lower. rewrite contraction_loops.
  change (tabulate2 (gcov (mkConfig true nc) G loc i j))
    with (Some minkowski_matrix).
  cbn [bind]. unfold mat_vec, minkowski_matrix, dot; cbn [e0 e1 e2 e3].
  f_equal. f_equal; ring.
Qed.

Lemma raise_flat (nc : bool) (G : Grid) (v out : Vec4) (i j k : Z)
    (loc : Loci) :
  raise (mkConfig true nc) G v out i j k loc =
    Some (mkArr4 (- e0 v)%R (e1 v) (e2 v) (e3 v)).
Proof.
  unfold raise. rewrite contraction_loops.
  change (tabulate2 (gcon (mkConfig true nc) G loc i j))
    with (Some minkowski_matrix).
  cbn [bind]. unfold mat_vec, minkowski_matrix, dot; cbn [e0 e1 e2 e3].
  f_equal. f_equal; ring.
Qed.

(** A flat-analytic grid of unit zones: the covariant metric at the centre
    of zone (2,2) is diag(-1,1,1,1), and lowering (1,0,0,0) gives
    (-1,0,0,0). *)
Example flat_grid_end_to_end :
  gcov_full shipped_config (Grid_flat unit_block) center 2 2 zero_matrix
  = Some minkowski_matrix /\
  lower shipped_config (Grid_flat unit_block) (mkArr4 1%R 0%R 0%R 0%R)
    zero_vector 2 2 0 center
  = Some (mkArr4 (-1)%R 0%R 0%R 0%R).
Proof.
  split; [reflexivity|].
  unfold shipped_config. rewrite lower_flat. reflexivity.
Qed.

Lemma minkowski_embedding_inverts : inverts_own_metric minkowski_embedding.
Proof. intros X. exact minkowski_self_inverse. Qed.

(** ** Round trip *)

(** C4. Raising the lowered vector gives the vector back: wherever the
    metric can be read and [gcon] is the inverse of [gcov]; in the
    flat-analytic configuration for every grid and every argument, [lower]
    and [raise] each negating the time component and nothing else; and in the
    caching configuration for every zone of the block, once the constructor
    has returned, when the embedding inverts the metrics it produces. *)
Theorem raise_lower_roundtrip :
  (forall cfg G v out1 out2 i j k loc,
     metric_invertible_at cfg G loc i j ->
     raise_lower cfg G v out1 out2 i j k loc = Some v) /\
  (forall nc G v out1 out2 i j k loc,
     lower (mkConfig true nc) G v out1 i j k loc =
       Some (mkArr4 (- e0 v)%R (e1 v) (e2 v) (e3 v)) /\
     raise (mkConfig true nc) G v out2 i j k loc =
       Some (mkArr4 (- e0 v)%R (e1 v) (e2 v) (e3 v)) /\
     raise_lower (mkConfig true nc) G v out1 out2 i j k loc = Some v) /\
  (forall n1 n2 cs pmb,
     inverts_own_metric cs ->
     exists G,
       Grid_embedded cached_config n1 n2 (Some cs) pmb = Some G /\
       forall v out1 out2 i j k loc,
         0 <= i < n1 -> 0 <= j < n2 ->
         raise_lower cached_config G v out1 out2 i j k loc = Some v).
Proof.
  split; [|split].
  - intros. apply raise_lower_of_inverse. assumption.
  - intros. split; [apply lower_flat|]. split; [apply raise_flat|].
    apply raise_lower_of_inverse, flat_metric_invertible.
  - intros n1 n2 cs pmb Hinv.
    destruct (Grid_embedded_cached n1 n2 cs pmb) as (G & Hrun & Hfill).
    exists G. split; [exact Hrun|].
    intros v out1 out2 i j k loc Hi Hj.
    apply raise_lower_of_inverse.
    apply cached_metric_invertible with (3 := Hinv) (2 := Hfill).
    + apply allocated_shaped.
    + split; assumption.
Qed.

Lemma raise_lower_roundtrip_witness :
  metric_invertible_at shipped_config (Grid_flat unit_block) center 2 2 /\
  raise_lower shipped_config (Grid_flat unit_block)
    (mkArr4 1%R 0%R 0%R 0%R) zero_vector zero_vector 2 2 0 center
  = Some (mkArr4 1%R 0%R 0%R 0%R) /\
  inverts_own_metric minkowski_embedding /\
  exists G,
    Grid_embedded cached_config 4 4 (Some minkowski_embedding) unit_block
    = Some G /\
    raise_lower cached_config G (mkArr4 1%R 0%R 0%R 0%R)
      zero_vector zero_vector 2 2 0 center
    = Some (mkArr4 1%R 0%R 0%R 0%R).
Proof.
  split; [apply flat_metric_invertible|].
  split.
  { apply (proj1 raise_lower_roundtrip). apply flat_metric_invertible. }
  split; [exact minkowski_embedding_inverts|].
  destruct (proj2 (proj2 raise_lower_roundtrip) 4 4 minkowski_embedding
              unit_block minkowski_embedding_inverts) as (G & Hrun & Hrt).
  exists G. split; [exact Hrun|].
  apply Hrt; lia.
Defined.

(** ** The inverse metric *)

(** C5. The matrix [gcon(loc,i,j)] is the inverse of [gcov(loc,i,j)], both
    products being the identity: in the flat-analytic configuration for
    every grid, location and indices; in the caching configuration at every
    location of every zone of the block, once the constructor has returned,
    when the embedding's [gcon_native] inverts the metrics its [gcov_native]
    produces. *)
Theorem gcon_inverse_of_gcov :
  (forall nc G loc i j out1 out2,
     exists g h,
       gcov_full (mkConfig true nc) G loc i j out1 = Some g /\
       gcon_full (mkConfig true nc) G loc i j out2 = Some h /\
       inverse_of g h) /\
  (forall n1 n2 cs pmb,
     inverts_own_metric cs ->
     exists G,
       Grid_embedded cached_config n1 n2 (Some cs) pmb = Some G /\
       forall loc i j out1 out2,
         0 <= i < n1 -> 0 <= j < n2 ->
         exists g h,
           gcov_full cached_config G loc i j out1 = Some g /\
           gcon_full cached_config G loc i j out2 = Some h /\
           inverse_of g h).
Proof.
  split.
  - intros. exists minkowski_matrix, minkowski_matrix.
    split; [reflexivity|]. split; [reflexivity|].
    exact minkowski_self_inverse.
  - intros n1 n2 cs pmb Hinv.
    destruct (Grid_embedded_cached n1 n2 cs pmb) as (G & Hrun & Hfill).
    exists G. split; [exact Hrun|].
    intros loc i j out1 out2 Hi Hj.
    assert (Hij : in_block (allocated (assigned n1 n2 (Some cs) pmb)) i j)
      by (split; assumption).
    destruct (coord_returns G i j 0 loc local_Vec4) as [X HX].
    exists (gcov_native cs X), (snd (gcon_native cs (gcov_native cs X))).
    split; [|split].
    + rewrite (cached_gcov_full _ G cs (allocated_shaped _) Hfill) by exact Hij.
      unfold metric_at, native_at. rewrite HX. reflexivity.
    + rewrite (cached_gcon_full _ G cs (allocated_shaped _) Hfill) by exact Hij.
      unfold inverse_at, metric_at, native_at. rewrite HX. reflexivity.
    + apply Hinv.
Qed.

Lemma gcon_inverse_of_gcov_witness :
  inverts_own_metric minkowski_embedding /\
  exists G,
    Grid_embedded cached_config 4 4 (Some minkowski_embedding) unit_block
    = Some G /\
    exists g h,
      gcov_full cached_config G face1 2 3 zero_matrix = Some g /\
      gcon_full cached_config G face1 2 3 zero_matrix = Some h /\
      inverse_of g h.
Proof.
  split; [exact minkowski_embedding_inverts|].
  destruct (proj2 gcon_inverse_of_gcov 4 4 minkowski_embedding unit_block
              minkowski_embedding_inverts) as (G & Hrun & Hinv).
  exists G. split; [exact Hrun|].
  apply Hinv; lia.
Defined.

(** The order in which the iterations of the two launches run does not show
    in the cache: whatever the two orders, the launches return, and every
    read of every view is the read after the row-by-row run. *)
Lemma cache_independent_of_schedule (G : Grid) (cs : CoordinateEmbedding)
    (sched1 sched2 : list (Z * Z)) :
  coords G = Some cs ->
  covers (gn1 G) (gn2 G) sched1 -> covers (gn1 G) (gn2 G) sched2 ->
  exists Gseq Gpar,
    init_grids cached_config G = Some Gseq /\
    (G1 <- run_schedule sched1 (init_geom_body (allocated G) cs)
             (allocated G) ;;
     run_schedule sched2 (init_conn_body (allocated G) cs) G1) = Some Gpar /\
    forall f idx,
      view_read (view_of f Gpar) idx = view_read (view_of f Gseq) idx.
Proof.
  intros Hcs H1 H2.
  destruct (init_grids_cached_fills G cs Hcs) as (Gseq & Hseq & Hfill).
  pose proof (fills_seq _ cs _ _ _ _
                (init_geom_any_order (allocated G) cs sched1
                   (allocated_shaped G) H1)
                (init_conn_any_order (allocated G) cs sched2
                   (allocated_shaped G) H2)) as Hboth.
  destruct (Hboth (fun _ _ => False) (allocated G)) as (Gpar & Hpar & HI).
  { split; [apply same_frame_refl|]. intros f idx []. }
  exists Gseq, Gpar. split; [exact Hseq|]. split; [exact Hpar|].
  intros f idx.
  rewrite (filled_view_read (allocated G) cs Gseq f idx
             (allocated_shaped G) Hfill).
  apply filled_view_read; [apply allocated_shaped|].
  apply fill_inv_weaken with (2 := HI).
  intros f' idx' H. right. exact H.
Qed.

(** ** The cache after construction *)

(** C7. In the caching configuration the constructor returns whenever the
    embedding pointer can be dereferenced, and then, at every zone (i,j) of
    the block and each of the five locations: the cached covariant metric
    is the embedding's [gcov_native] at [coord(i,j,0,loc)]; the cached
    contravariant metric and [gdet] are the matrix and the scalar that
    [gcon_native] produces from that covariant metric; the cached connection
    is [conn_func] at [coord(i,j,0,center)], with no location index.  The
    one-component accessors return the components of these tensors.  The
    coordinates are those of the mesh block. *)
Theorem cached_init_fills_cache :
  forall (n1 n2 : Z) (cs : CoordinateEmbedding) (pmb : MeshBlock),
  exists G,
    Grid_embedded cached_config n1 n2 (Some cs) pmb = Some G /\
    (forall i j k loc X,
       coord G i j k loc X = coord (assigned n1 n2 (Some cs) pmb) i j k loc X) /\
    forall loc i j,
      0 <= i < n1 -> 0 <= j < n2 ->
      (forall out, gcov_full cached_config G loc i j out =
                   (X <- coord G i j 0 loc local_Vec4 ;;
                    Some (gcov_native cs X))) /\
      (forall out, gcon_full cached_config G loc i j out =
                   (X <- coord G i j 0 loc local_Vec4 ;;
                    Some (snd (gcon_native cs (gcov_native cs X))))) /\
      gdet cached_config G loc i j =
        (X <- coord G i j 0 loc local_Vec4 ;;
         Some (fst (gcon_native cs (gcov_native cs X)))) /\
      (forall out, conn_full cached_config G i j out =
                   (X <- coord G i j 0 center local_Vec4 ;;
                    Some (conn_func cs X))) /\
      (forall mu nu, gcov cached_config G loc i j mu nu =
                     (g <- metric_at G cs i j loc ;; rd2 g mu nu)) /\
      (forall mu nu, gcon cached_config G loc i j mu nu =
                     (h <- inverse_at G cs i j loc ;; rd2 h mu nu)) /\
      (forall mu nu lam, conn cached_config G i j mu nu lam =
                         (c <- connection_at G cs i j ;; rd3 c mu nu lam)).
Proof.
  intros n1 n2 cs pmb.
  destruct (Grid_embedded_cached n1 n2 cs pmb) as (G & Hrun & Hfill).
  pose proof (allocated_shaped (assigned n1 n2 (Some cs) pmb)) as Hshape.
  exists G. split; [exact Hrun|]. split.
  - intros i j k loc X.
    destruct Hfill as [(_ & H1 & H2 & H3 & H4 & H5 & H6 & _) _].
    unfold coord. rewrite H1, H2, H3, H4, H5, H6. reflexivity.
  - intros loc i j Hi Hj.
    assert (Hij : in_block (allocated (assigned n1 n2 (Some cs) pmb)) i j)
      by (split; assumption).
    repeat split; intros.
    + rewrite (cached_gcov_full _ G cs Hshape Hfill) by exact Hij.
      destruct (coord_returns G i j 0 loc local_Vec4) as [X HX].
      unfold metric_at, native_at. rewrite HX. reflexivity.
    + rewrite (cached_gcon_full _ G cs Hshape Hfill) by exact Hij.
      destruct (coord_returns G i j 0 loc local_Vec4) as [X HX].
      unfold inverse_at, metric_at, native_at. rewrite HX. reflexivity.
    + rewrite (cached_gdet_value _ G cs Hshape Hfill) by exact Hij.
      destruct (coord_returns G i j 0 loc local_Vec4) as [X HX].
      unfold scalar_at, metric_at, native_at. rewrite HX. reflexivity.
    + rewrite (cached_conn_full _ G cs Hshape Hfill) by exact Hij.
      reflexivity.
    + apply (cached_gcov_component _ G cs Hshape Hfill). exact Hij.
    + apply (cached_gcon_component _ G cs Hshape Hfill). exact Hij.
    + apply (cached_conn_component _ G cs Hshape Hfill). exact Hij.
Qed.

Lemma cached_init_fills_cache_witness :
  exists G,
    Grid_embedded cached_config 4 4 (Some minkowski_embedding) unit_block
    = Some G /\
    gcov_full cached_config G face2 3 1 zero_matrix = Some minkowski_matrix /\
    gcon_full cached_config G face2 3 1 zero_matrix = Some minkowski_matrix /\
    gdet cached_config G face2 3 1 = Some 1%R /\
    conn_full cached_config G 3 1 zero_tensor = Some zero_tensor.
Proof.
  destruct (cached_init_fills_cache 4 4 minkowski_embedding unit_block)
    as (G & Hrun & Hcoord & Hall).
  exists G. split; [exact Hrun|].
  destruct (Hall face2 3 1) as (Hcov & Hcon & Hdet & Hconn & _); [lia|lia|].
  rewrite Hcov, Hcon, Hdet, Hconn, !Hcoord.
  repeat split; reflexivity.
Defined.

(** ** The third axis *)

Lemma cache_target_ext (Gc Gc' : Grid) (cs : CoordinateEmbedding)
    (f : Field) (idx : list Z) :
  (forall i j loc, native_at Gc i j loc = native_at Gc' i j loc) ->
  cache_target Gc cs f idx = cache_target Gc' cs f idx.
Proof.
  intros H.
  destruct f; destruct idx as [|a [|b [|c [|d [|e [|x rest]]]]]];
    try reflexivity; cbn [cache_target];
    unfold inverse_at, scalar_at, metric_at, connection_at;
    try rewrite H; try reflexivity;
    destruct (int_to_Loci a); cbn [bind]; try rewrite H; reflexivity.
Qed.

Lemma native_at_third_axis (n1 n2 : Z) (p : Pointer CoordinateEmbedding)
    (pmb pmb' : MeshBlock) (i j : Z) (loc : Loci) :
  agree_up_to_third_axis pmb pmb' ->
  native_at (allocated (assigned n1 n2 p pmb)) i j loc =
  native_at (allocated (assigned n1 n2 p pmb')) i j loc.
Proof.
  intros (H1 & H2 & H3 & H4 & H5 & H6).
  unfold native_at, coord, allocated, assigned.
  cbn [x1f x2f x3f x1v x2v x3v set_gcon_direct set_gcov_direct
       set_gdet_direct set_conn_direct].
  rewrite H1, H2, H3, H4, H5, H6. reflexivity.
Qed.

(** C9. No metric accessor takes a third index; [lower] and [raise] make no
    use of theirs, so two calls that differ in [k] alone return the same;
    and the cache is computed from native coordinates at third index 0
    only: two mesh blocks that differ in their third-axis arrays away from
    index 0 give caches on which every accessor returns the same, at all
    indices. *)
Theorem third_axis_independence :
  (forall cfg G vin vout i j k k' loc,
     lower cfg G vin vout i j k loc = lower cfg G vin vout i j k' loc /\
     raise cfg G vin vout i j k loc = raise cfg G vin vout i j k' loc) /\
  (forall n1 n2 cs pmb pmb',
     agree_up_to_third_axis pmb pmb' ->
     exists G G',
       Grid_embedded cached_config n1 n2 (Some cs) pmb = Some G /\
       Grid_embedded cached_config n1 n2 (Some cs) pmb' = Some G' /\
       forall loc i j mu nu lam,
         gcov cached_config G loc i j mu nu =
           gcov cached_config G' loc i j mu nu /\
         gcon cached_config G loc i j mu nu =
           gcon cached_config G' loc i j mu nu /\
         gdet cached_config G loc i j = gdet cached_config G' loc i j /\
         conn cached_config G i j mu nu lam =
           conn cached_config G' i j mu nu lam).
Proof.
  split.
  - intros. split; reflexivity.
  - intros n1 n2 cs pmb pmb' Hagree.
    destruct (Grid_embedded_cached n1 n2 cs pmb) as (G & Hrun & Hfill).
    destruct (Grid_embedded_cached n1 n2 cs pmb') as (G' & Hrun' & Hfill').
    exists G, G'. split; [exact Hrun|]. split; [exact Hrun'|].
    assert (Hread : forall f idx,
              view_read (view_of f G) idx = view_read (view_of f G') idx).
    { intros f idx.
      rewrite (filled_view_read _ cs G f idx (allocated_shaped _) Hfill).
      rewrite (filled_view_read _ cs G' f idx (allocated_shaped _) Hfill').
      rewrite (cache_target_ext _ (allocated (assigned n1 n2 (Some cs) pmb'))).
      - destruct f; reflexivity.
      - intros. apply native_at_third_axis. exact Hagree. }
    intros loc i j mu nu lam. repeat split.
    + apply (Hread F_gcov).
    + apply (Hread F_gcon).
    + apply (Hread F_gdet).
    + apply (Hread F_conn).
Qed.

Lemma unit_sheared_agree : agree_up_to_third_axis unit_block sheared_block.
Proof. unfold agree_up_to_third_axis. repeat split; reflexivity. Qed.

Lemma third_axis_independence_witness :
  agree_up_to_third_axis unit_block sheared_block /\
  exists G G',
    Grid_embedded cached_config 4 4 (Some minkowski_embedding) unit_block
    = Some G /\
    Grid_embedded cached_config 4 4 (Some minkowski_embedding) sheared_block
    = Some G' /\
    gcov cached_config G face3 1 2 3 3 = gcov cached_config G' face3 1 2 3 3.
Proof.
  split; [exact unit_sheared_agree|].
  destruct (proj2 third_axis_independence 4 4 minkowski_embedding
              unit_block sheared_block unit_sheared_agree)
    as (G & G' & Hrun & Hrun' & Hsame).
  exists G, G'. split; [exact Hrun|]. split; [exact Hrun'|].
  apply (Hsame face3 1 2 3 3 0).
Defined.

(** ** The embedding pointer *)

(** C10. The one-argument constructor leaves [coords] unset, and
    [coord_embed] goes through [coords] on every call: on a grid built by
    that constructor no call has a defined result.  In general [coord_embed]
    has a result exactly when [coords] can be dereferenced; after the
    two-argument constructor, given a valid pointer, it returns the
    embedding of the native coordinates. *)
Theorem coord_embed_needs_coords :
  (forall pmb i j k loc out,
     coords (Grid_flat pmb) = None /\
     coord_embed (Grid_flat pmb) i j k loc out = None) /\
  (forall G i j k loc out,
     coord_embed G i j k loc out <> None <-> coords G <> None) /\
  (forall cfg n1 n2 cs pmb G i j k loc out,
     Grid_embedded cfg n1 n2 (Some cs) pmb = Some G ->
     exists X,
       coord G i j k loc local_Vec4 = Some X /\
       coord_embed G i j k loc out = Some (coord_to_embed cs X)).
Proof.
  split; [|split].
  - intros. split; [reflexivity|].
    unfold coord_embed.
    destruct (coord_returns (Grid_flat pmb) i j k loc local_Vec4) as [X HX].
    rewrite HX. reflexivity.
  - intros. unfold coord_embed.
    destruct (coord_returns G i j k loc local_Vec4) as [X HX].
    rewrite HX. cbn [bind].
    destruct (coords G); cbn [bind]; split; intros H; congruence.
  - intros cfg n1 n2 cs pmb G i j k loc out Hrun.
    destruct (coord_returns G i j k loc local_Vec4) as [X HX].
    exists X. split; [exact HX|].
    unfold coord_embed.
    rewrite HX, (Grid_embedded_coords cfg n1 n2 cs pmb G Hrun).
    reflexivity.
Qed.

Lemma coord_embed_needs_coords_witness :
  Grid_embedded shipped_config 4 4 (Some minkowski_embedding) unit_block
  = Some (assigned 4 4 (Some minkowski_embedding) unit_block) /\
  coord_embed (Grid_flat unit_block) 2 2 0 face1 zero_vector = None /\
  exists X,
    coord (assigned 4 4 (Some minkowski_embedding) unit_block)
      2 2 0 face1 local_Vec4 = Some X /\
    coord_embed (assigned 4 4 (Some minkowski_embedding) unit_block)
      2 2 0 face1 zero_vector = Some (coord_to_embed minkowski_embedding X).
Proof.
  split; [reflexivity|]. split.
  - apply (proj1 coord_embed_needs_coords).
  - apply (proj2 (proj2 coord_embed_needs_coords) shipped_config 4 4
             minkowski_embedding unit_block).
    reflexivity.
Defined.

(** * Further properties *)

(** ** Where the cache can be read *)

Lemma filled_read_defined (Gc : Grid) (cs : CoordinateEmbedding) (G : Grid)
    (f : Field) (idx : list Z) :
  shaped Gc ->
  fill_inv Gc cs (block_slots (gn1 Gc) (gn2 Gc)) G ->
  (view_read (view_of f G) idx <> None <->
   in_bounds idx (extent (view_of f Gc)) = true).
Proof.
  intros Hshape Hfill.
  rewrite (filled_view_read Gc cs G f idx Hshape Hfill).
  destruct (in_bounds idx (extent (view_of f Gc))) eqn:Hin.
  - destruct Hfill as [_ Hfilled].
    destruct (Hfilled f idx (in_bounds_written Gc f idx Hshape Hin))
      as (v & Hv & _).
    rewrite Hv. split; [reflexivity | discriminate].
  - split; [intros H; contradiction | discriminate].
Qed.

Lemma tensor_index_in_bounds (loc : Loci) (i j mu nu n1 n2 : Z) :
  in_bounds [Loci_to_int loc; i; j; mu; nu] [NLOC; n1; n2; NDIM; NDIM] = true
  <-> (0 <= i < n1 /\ 0 <= j < n2) /\ index4 mu /\ index4 nu.
Proof.
  pose proof (Loci_to_int_range loc) as Hloc. unfold index4. split.
  - intros H.
    repeat (apply in_bounds_cons in H;
            let Hr := fresh "Hr" in destruct H as [Hr H]).
    auto.
  - intros [[Hi Hj] [Hmu Hnu]]. in_bounds_tac.
Qed.

Lemma scalar_index_in_bounds (loc : Loci) (i j n1 n2 : Z) :
  in_bounds [Loci_to_int loc; i; j] [NLOC; n1; n2] = true
  <-> 0 <= i < n1 /\ 0 <= j < n2.
Proof.
  pose proof (Loci_to_int_range loc) as Hloc. split.
  - intros H.
    repeat (apply in_bounds_cons in H;
            let Hr := fresh "Hr" in destruct H as [Hr H]).
    auto.
  - intros [Hi Hj]. in_bounds_tac.
Qed.

Lemma conn_index_in_bounds (i j mu nu lam n1 n2 : Z) :
  in_bounds [i; j; mu; nu; lam] [n1; n2; NDIM; NDIM; NDIM] = true
  <-> (0 <= i < n1 /\ 0 <= j < n2) /\ index4 mu /\ index4 nu /\ index4 lam.
Proof.
  unfold index4. split.
  - intros H.
    repeat (apply in_bounds_cons in H;
            let Hr := fresh "Hr" in destruct H as [Hr H]).
    auto.
  - intros [[Hi Hj] [Hmu [Hnu Hlam]]]. in_bounds_tac.
Qed.

(** X1. After the caching constructor the accessors are defined on the
    block and nowhere else: [gcov] and [gcon] have a value exactly when
    (i,j) is a zone of the block and mu, nu are in 0..3, [gdet] exactly when
    (i,j) is a zone of the block, [conn] exactly when (i,j) is a zone of
    the block and mu, nu, lam are in 0..3. *)
Theorem cached_accessors_defined_on_block :
  forall (n1 n2 : Z) (cs : CoordinateEmbedding) (pmb : MeshBlock),
  exists G,
    Grid_embedded cached_config n1 n2 (Some cs) pmb = Some G /\
    forall loc i j mu nu lam,
      (gcov cached_config G loc i j mu nu <> None <->
       (0 <= i < n1 /\ 0 <= j < n2) /\ index4 mu /\ index4 nu) /\
      (gcon cached_config G loc i j mu nu <> None <->
       (0 <= i < n1 /\ 0 <= j < n2) /\ index4 mu /\ index4 nu) /\
      (gdet cached_config G loc i j <> None <->
       0 <= i < n1 /\ 0 <= j < n2) /\
      (conn cached_config G i j mu nu lam <> None <->
       (0 <= i < n1 /\ 0 <= j < n2) /\
       index4 mu /\ index4 nu /\ index4 lam).
Proof.
  intros n1 n2 cs pmb.
  destruct (Grid_embedded_cached n1 n2 cs pmb) as (G & Hrun & Hfill).
  pose proof (allocated_shaped (assigned n1 n2 (Some cs) pmb)) as Hshape.
  exists G. split; [exact Hrun|].
  intros loc i j mu nu lam.
  pose proof (fun f idx =>
    filled_read_defined _ cs G f idx Hshape Hfill) as Hdef.
  split; [|split; [|split]].
  - rewrite <- tensor_index_in_bounds. apply (Hdef F_gcov).
  - rewrite <- tensor_index_in_bounds. apply (Hdef F_gcon).
  - rewrite <- scalar_index_in_bounds. apply (Hdef F_gdet).
  - rewrite <- conn_index_in_bounds. apply (Hdef F_conn).
Qed.

Lemma cached_accessors_defined_on_block_witness :
  exists G,
    Grid_embedded cached_config 4 4 (Some minkowski_embedding) unit_block
    = Some G /\
    gcov cached_config G corner 3 0 1 2 <> None /\
    (gcov cached_config G corner 4 0 1 2 <> None -> False) /\
    (gdet cached_config G corner 0 (-1) <> None -> False).
Proof.
  destruct (cached_accessors_defined_on_block 4 4 minkowski_embedding
              unit_block) as (G & Hrun & Hdef).
  exists G. split; [exact Hrun|]. split; [|split].
  - apply (proj1 (Hdef corner 3 0 1 2 0)). unfold index4, NDIM. lia.
  - intros H. apply (proj1 (Hdef corner 4 0 1 2 0)) in H. lia.
  - intros H.
    apply (proj1 (proj2 (proj2 (Hdef corner 0 (-1) 0 0 0)))) in H. lia.
Defined.

(** ** When the constructor returns *)

(** X2. The two-argument constructor dereferences [coords] only in the
    caching configuration ([CoordinateEmbedding cs = *(G.coords)] in
    [init_grids]): it returns exactly when one of the two flags is set or
    the pointer can be dereferenced. *)
Theorem constructor_returns_iff :
  forall (cfg : Config) (n1 n2 : Z) (p : Pointer CoordinateEmbedding)
         (pmb : MeshBlock),
    Grid_embedded cfg n1 n2 p pmb <> None <->
    (FAST_CARTESIAN cfg = true \/ NO_CACHE cfg = true \/ p <> None).
Proof.
  intros [[|] [|]] n1 n2 p pmb; cbn [FAST_CARTESIAN NO_CACHE];
    try (split; [intros _; auto | intros _; unfold Grid_embedded;
                 rewrite init_grids_uncached by reflexivity; discriminate]).
  change (mkConfig false false) with cached_config.
  destruct p as [cs|].
  - destruct (Grid_embedded_cached n1 n2 cs pmb) as (G & Hrun & _).
    rewrite Hrun. split; [intros _; right; right; discriminate | discriminate].
  - unfold Grid_embedded. rewrite init_grids_cached_unfold. cbn [assigned coords bind].
    split; [intros H; contradiction|].
    intros [H|[H|H]]; try discriminate H. contradiction.
Qed.

Lemma constructor_returns_iff_witness :
  Grid_embedded cached_config 4 4 None unit_block = None /\
  Grid_embedded shipped_config 4 4 None unit_block <> None /\
  Grid_embedded cached_config 4 4 (Some minkowski_embedding) unit_block
  <> None.
Proof.
  split; [reflexivity|]. split.
  - apply (proj2 (constructor_returns_iff shipped_config 4 4 None unit_block)).
    left. reflexivity.
  - apply (proj2 (constructor_returns_iff cached_config 4 4
                    (Some minkowski_embedding) unit_block)).
    right. right. discriminate.
Defined.

(** X3. Whatever the configuration, a grid the two-argument constructor
    returns has the pointer it was given, the six coordinate arrays of the
    mesh block and the zone counts it was given: [init_grids] writes to the
    four views only. *)
Theorem constructor_keeps_members :
  forall (cfg : Config) (n1 n2 : Z) (p : Pointer CoordinateEmbedding)
         (pmb : MeshBlock) (G : Grid),
    Grid_embedded cfg n1 n2 p pmb = Some G ->
    coords G = p /\
    x1f G = pc_x1f (pcoord pmb) /\ x2f G = pc_x2f (pcoord pmb) /\
    x3f G = pc_x3f (pcoord pmb) /\
    x1v G = pc_x1v (pcoord pmb) /\ x2v G = pc_x2v (pcoord pmb) /\
    x3v G = pc_x3v (pcoord pmb) /\
    gn1 G = n1 /\ gn2 G = n2.
Proof.
  intros [[|] [|]] n1 n2 p pmb G H;
    try (unfold Grid_embedded in H;
         rewrite init_grids_uncached in H by reflexivity;
         injection H as H; subst G; repeat split; reflexivity).
  change (mkConfig false false) with cached_config in H.
  destruct p as [cs|].
  - destruct (Grid_embedded_cached n1 n2 cs pmb) as (G' & Hrun & Hfr & _).
    rewrite Hrun in H. injection H as H. subst G'.
    destruct Hfr as (H0 & H1 & H2 & H3 & H4 & H5 & H6 & H7 & H8 & _).
    repeat split; assumption.
  - unfold Grid_embedded in H. rewrite init_grids_cached_unfold in H.
    discriminate H.
Qed.

Lemma constructor_keeps_members_witness :
  exists G,
    Grid_embedded cached_config 4 4 (Some minkowski_embedding) unit_block
    = Some G /\
    coords G = Some minkowski_embedding /\ gn1 G = 4 /\ gn2 G = 4.
Proof.
  destruct (Grid_embedded_cached 4 4 minkowski_embedding unit_block)
    as (G & Hrun & _).
  exists G. split; [exact Hrun|].
  destruct (constructor_keeps_members cached_config 4 4
              (Some minkowski_embedding) unit_block G Hrun)
    as (H0 & _ & _ & _ & _ & _ & _ & H7 & H8).
  auto.
Defined.

(** ** The order of the iterations *)

Lemma rows_up_covers : covers 2 1 rows_up.
Proof.
  intros i j. unfold rows_up. cbn [In]. split.
  - intros [H|[H|[]]]; injection H as Hi Hj; lia.
  - intros [Hi Hj]. assert (Hj0 : j = 0) by lia.
    assert (Hi0 : i = 0 \/ i = 1) by lia.
    subst j. destruct Hi0; subst i; auto.
Qed.

Lemma rows_down_covers : covers 2 1 rows_down.
Proof.
  intros i j. unfold rows_down. cbn [In]. split.
  - intros [H|[H|[]]]; injection H as Hi Hj; lia.
  - intros [Hi Hj]. assert (Hj0 : j = 0) by lia.
    assert (Hi0 : i = 0 \/ i = 1) by lia.
    subst j. destruct Hi0; subst i; auto.
Qed.

(** X4. The cache does not depend on the order in which the iterations of
    the two launches run: for any two orders that visit exactly the zones of
    the block, the launches return and every accessor returns, at all
    indices, what it returns after [init_grids]. *)
Theorem cache_fill_order_irrelevant :
  forall (G : Grid) (cs : CoordinateEmbedding) (sched1 sched2 : list (Z * Z)),
    coords G = Some cs ->
    covers (gn1 G) (gn2 G) sched1 -> covers (gn1 G) (gn2 G) sched2 ->
    exists Gseq Gpar,
      init_grids cached_config G = Some Gseq /\
      (G1 <- run_schedule sched1 (init_geom_body (allocated G) cs)
               (allocated G) ;;
       run_schedule sched2 (init_conn_body (allocated G) cs) G1)
      = Some Gpar /\
      forall loc i j mu nu lam,
        gcov cached_config Gpar loc i j mu nu =
          gcov cached_config Gseq loc i j mu nu /\
        gcon cached_config Gpar loc i j mu nu =
          gcon cached_config Gseq loc i j mu nu /\
        gdet cached_config Gpar loc i j = gdet cached_config Gseq loc i j /\
        conn cached_config Gpar i j mu nu lam =
          conn cached_config Gseq i j mu nu lam.
Proof.
  intros G cs sched1 sched2 Hcs H1 H2.
  destruct (cache_independent_of_schedule G cs sched1 sched2 Hcs H1 H2)
    as (Gseq & Gpar & Hseq & Hpar & Hread).
  exists Gseq, Gpar. split; [exact Hseq|]. split; [exact Hpar|].
  intros loc i j mu nu lam. repeat split.
  - apply (Hread F_gcov).
  - apply (Hread F_gcon).
  - apply (Hread F_gdet).
  - apply (Hread F_conn).
Qed.

Lemma cache_fill_order_irrelevant_witness :
  covers 2 1 rows_down /\ covers 2 1 rows_up /\
  exists Gseq Gpar,
    init_grids cached_config
      (assigned 2 1 (Some minkowski_embedding) unit_block) = Some Gseq /\
    (G1 <- run_schedule rows_down
             (init_geom_body
                (allocated (assigned 2 1 (Some minkowski_embedding)
                              unit_block)) minkowski_embedding)
             (allocated (assigned 2 1 (Some minkowski_embedding)
                           unit_block)) ;;
     run_schedule rows_up
       (init_conn_body
          (allocated (assigned 2 1 (Some minkowski_embedding) unit_block))
          minkowski_embedding) G1) = Some Gpar /\
    gcov cached_config Gpar face1 1 0 0 0 =
      gcov cached_config Gseq face1 1 0 0 0.
Proof.
  split; [exact rows_down_covers|]. split; [exact rows_up_covers|].
  destruct (cache_fill_order_irrelevant
              (assigned 2 1 (Some minkowski_embedding) unit_block)
              minkowski_embedding rows_down rows_up eq_refl
              rows_down_covers rows_up_covers)
    as (Gseq & Gpar & Hseq & Hpar & Hsame).
  exists Gseq, Gpar. split; [exact Hseq|]. split; [exact Hpar|].
  apply (Hsame face1 1 0 0 0 0).
Defined.

(** ** What an iteration leaves alone *)

Lemma untouched_refl (Q : Slots) (G : Grid) : untouched Q G G.
Proof. intros f idx _. reflexivity. Qed.

Lemma untouched_trans (Q : Slots) (G1 G2 G3 : Grid) :
  untouched Q G1 G2 -> untouched Q G2 G3 -> untouched Q G1 G3.
Proof.
  intros H12 H23 f idx Hq. rewrite (H23 f idx Hq). apply H12, Hq.
Qed.

Lemma keeps_ext (Q : Slots) (c c' : Grid -> option Grid) :
  (forall G, c' G = c G) -> keeps Q c -> keeps Q c'.
Proof. intros Heq Hc G G' H. rewrite Heq in H. apply Hc, H. Qed.

Lemma keeps_seq (Q : Slots) (c1 c2 : Grid -> option Grid) :
  keeps Q c1 -> keeps Q c2 -> keeps Q (fun G => G1 <- c1 G ;; c2 G1).
Proof.
  intros H1 H2 G G' H. cbn beta in H.
  destruct (c1 G) as [G1|] eqn:E1; cbn [bind] in H; [|discriminate].
  apply untouched_trans with (G2 := G1); [apply H1, E1 | apply H2, H].
Qed.

Lemma keeps_for_each {I : Type} (Q : Slots)
    (body : I -> Grid -> option Grid) (l : list I) :
  (forall i, In i l -> keeps Q (body i)) -> keeps Q (for_each l body).
Proof.
  induction l as [|i l IH]; intros Hbody G G' H.
  - injection H as H. subst G'. apply untouched_refl.
  - cbn [for_each] in H.
    destruct (body i G) as [G1|] eqn:E1; cbn [bind] in H; [|discriminate].
    apply untouched_trans with (G2 := G1).
    + apply (Hbody i (or_introl eq_refl)), E1.
    + apply IH; [|exact H]. intros i' Hi'. apply Hbody. right. exact Hi'.
Qed.

Lemma keeps_for_range (Q : Slots) (body : Z -> Grid -> option Grid)
    (lo hi : Z) :
  (forall i, lo <= i < hi -> keeps Q (body i)) ->
  keeps Q (for_range lo hi body).
Proof.
  intros Hbody. unfold for_range. apply keeps_for_each.
  intros i Hi. apply Hbody, range_In, Hi.
Qed.

Lemma keeps_write_slot (Q : Slots) (f : Field) (idx : list Z) (x : Real) :
  ~ Q f idx -> keeps Q (write_slot f idx x).
Proof.
  intros Hn G G' H f' idx' Hq.
  unfold write_slot, view_write in H.
  destruct (in_bounds idx (extent (view_of f G))); cbn [bind] in H;
    [|discriminate].
  injection H as H. subst G'.
  destruct (Field_eq_dec f' f) as [Heqf|Hnef].
  - subst f'. rewrite view_of_set_view_same.
    unfold view_read; cbn [extent cell].
    destruct (list_eq_dec Z.eq_dec idx' idx) as [Heqi|Hnei].
    + subst idx'. contradiction.
    + reflexivity.
  - rewrite view_of_set_view_other by assumption. reflexivity.
Qed.

Lemma init_geom_body_keeps (Gc : Grid) (cs : CoordinateEmbedding) (i j : Z) :
  keeps (off_zone_geom i j) (init_geom_body Gc cs i j).
Proof.
  unfold init_geom_body.
  apply keeps_for_range. intros loc Hloc.
  destruct (int_to_Loci_in_range loc Hloc) as (l & Hl & _).
  destruct (coord_returns Gc i j 0 l local_Vec4) as [X HX].
  assert (Hmine : forall f rest, f <> F_conn ->
            ~ off_zone_geom i j f (loc :: i :: j :: rest)).
  { intros f rest Hf [Hq|Hq]; [contradiction|].
    apply (Hq loc rest). reflexivity. }
  apply keeps_ext with
    (c := fun G =>
       G1 <- write_slot F_gdet [loc; i; j]
               (fst (gcon_native cs (gcov_native cs X))) G ;;
       DLOOP2 (fun mu nu G =>
         c <- rd2 (gcov_native cs X) mu nu ;;
         gcov_local <- view_write (gcov_direct G) [loc; i; j; mu; nu] c ;;
         let G := set_gcov_direct G gcov_local in
         c <- rd2 (snd (gcon_native cs (gcov_native cs X))) mu nu ;;
         gcon_local <- view_write (gcon_direct G) [loc; i; j; mu; nu] c ;;
         Some (set_gcon_direct G gcon_local)) G1).
  { intros G. rewrite Hl. cbn [bind]. rewrite HX. cbn [bind].
    destruct (gcon_native cs (gcov_native cs X)) as [det gcon_loc].
    cbn [fst snd]. unfold write_slot. cbn [bind view_of set_view].
    destruct (view_write (gdet_direct G) [loc; i; j] det); reflexivity. }
  apply keeps_seq.
  - apply keeps_write_slot, Hmine. discriminate.
  - unfold DLOOP2.
    apply keeps_for_range. intros mu Hmu.
    apply keeps_for_range. intros nu Hnu.
    destruct (rd2_in_range (gcov_native cs X) mu nu Hmu Hnu) as [c1 Hc1].
    destruct (rd2_in_range (snd (gcon_native cs (gcov_native cs X))) mu nu
                Hmu Hnu) as [c2 Hc2].
    apply keeps_ext with
      (c := fun G => G1 <- write_slot F_gcov [loc; i; j; mu; nu] c1 G ;;
                     write_slot F_gcon [loc; i; j; mu; nu] c2 G1).
    { intros G. rewrite Hc1, Hc2. unfold write_slot.
      cbn [bind view_of set_view].
      destruct (view_write (gcov_direct G) [loc; i; j; mu; nu] c1);
        reflexivity. }
    apply keeps_seq; apply keeps_write_slot, Hmine; discriminate.
Qed.

Lemma init_conn_body_keeps (Gc : Grid) (cs : CoordinateEmbedding) (i j : Z) :
  keeps (off_zone_conn i j) (init_conn_body Gc cs i j).
Proof.
  unfold init_conn_body.
  destruct (coord_returns Gc i j 0 center local_Vec4) as [X HX].
  rewrite HX.
  apply keeps_ext with
    (c := DLOOP2 (fun mu nu =>
       for_range 0 NDIM (fun kap G =>
         c <- rd3 (conn_func cs X) mu nu kap ;;
         conn_local <- view_write (conn_direct G) [i; j; mu; nu; kap] c ;;
         Some (set_conn_direct G conn_local)))).
  { intros G. reflexivity. }
  unfold DLOOP2.
  apply keeps_for_range. intros mu Hmu.
  apply keeps_for_range. intros nu Hnu.
  apply keeps_for_range. intros kap Hkap.
  destruct (rd3_in_range (conn_func cs X) mu nu kap Hmu Hnu Hkap) as [c Hc].
  apply keeps_ext with (c := write_slot F_conn [i; j; mu; nu; kap] c).
  { intros G. rewrite Hc. reflexivity. }
  apply keeps_write_slot.
  intros [Hq|Hq]; [contradiction|].
  apply (Hq [mu; nu; kap]). reflexivity.
Qed.

(** X5. An iteration of a kernel writes to its own zone only.  A run of
    the body of [init_geom] at (i,j) that returns leaves the connection
    view as it was and, at every other zone, [gcov], [gcon] and [gdet] as
    they were; a run of the body of [init_conn] at (i,j) leaves the three
    metric views as they were and [conn] at every other zone as it was.
    These are the disjoint writes that let the launches run in parallel. *)
Theorem kernel_iterations_write_own_zone :
  forall (Gc : Grid) (cs : CoordinateEmbedding) (i j : Z) (G G' : Grid),
    (init_geom_body Gc cs i j G = Some G' ->
     (forall i' j' mu nu lam,
        conn cached_config G' i' j' mu nu lam =
        conn cached_config G i' j' mu nu lam) /\
     (forall loc i' j' mu nu,
        (i', j') <> (i, j) ->
        gcov cached_config G' loc i' j' mu nu =
          gcov cached_config G loc i' j' mu nu /\
        gcon cached_config G' loc i' j' mu nu =
          gcon cached_config G loc i' j' mu nu /\
        gdet cached_config G' loc i' j' = gdet cached_config G loc i' j')) /\
    (init_conn_body Gc cs i j G = Some G' ->
     (forall loc i' j' mu nu,
        gcov cached_config G' loc i' j' mu nu =
          gcov cached_config G loc i' j' mu nu /\
        gcon cached_config G' loc i' j' mu nu =
          gcon cached_config G loc i' j' mu nu /\
        gdet cached_config G' loc i' j' = gdet cached_config G loc i' j') /\
     (forall i' j' mu nu lam,
        (i', j') <> (i, j) ->
        conn cached_config G' i' j' mu nu lam =
        conn cached_config G i' j' mu nu lam)).
Proof.
  intros Gc cs i j G G'. split; intros Hrun.
  - pose proof (init_geom_body_keeps Gc cs i j G G' Hrun) as Hkeep.
    split.
    + intros. apply (Hkeep F_conn). left. reflexivity.
    + intros loc i' j' mu nu Hne.
      assert (Hoff : forall f rest,
                off_zone_geom i j f (Loci_to_int loc :: i' :: j' :: rest)).
      { intros f rest. right. intros loc0 rest0 Heq.
        injection Heq as _ Hi Hj _. apply Hne. subst. reflexivity. }
      repeat split.
      * apply (Hkeep F_gcov), Hoff.
      * apply (Hkeep F_gcon), Hoff.
      * apply (Hkeep F_gdet), Hoff.
  - pose proof (init_conn_body_keeps Gc cs i j G G' Hrun) as Hkeep.
    split.
    + intros loc i' j' mu nu. repeat split.
      * apply (Hkeep F_gcov). left. discriminate.
      * apply (Hkeep F_gcon). left. discriminate.
      * apply (Hkeep F_gdet). left. discriminate.
    + intros i' j' mu nu lam Hne.
      apply (Hkeep F_conn). right. intros rest Heq.
      injection Heq as Hi Hj _. apply Hne. subst. reflexivity.
Qed.

Lemma kernel_iterations_write_own_zone_witness :
  exists G',
    init_geom_body
      (allocated (assigned 2 2 (Some minkowski_embedding) unit_block))
      minkowski_embedding 0 0
      (allocated (assigned 2 2 (Some minkowski_embedding) unit_block))
    = Some G' /\
    gcov cached_config G' center 1 1 0 0 =
    gcov cached_config
      (allocated (assigned 2 2 (Some minkowski_embedding) unit_block))
      center 1 1 0 0.
Proof.
  pose proof (allocated_shaped
                (assigned 2 2 (Some minkowski_embedding) unit_block))
    as Hshape.
  destruct (init_geom_body_fills _ minkowski_embedding 0 0 Hshape
              (conj (conj (Z.le_refl 0) Z.lt_0_2)
                    (conj (Z.le_refl 0) Z.lt_0_2))
              (fun _ _ => False) _
              (conj (same_frame_refl _)
                    (fun f idx (H : False) => False_ind _ H)))
    as (G' & Hrun & _).
  exists G'. split; [exact Hrun|].
  apply (proj1 (kernel_iterations_write_own_zone _ _ 0 0 _ G') Hrun).
  intros H. discriminate H.
Defined.

(** ** Lowering after raising, and linearity *)

Lemma lower_raise_of_inverse (cfg : Config) (G : Grid) (v out1 out2 : Vec4)
    (i j k : Z) (loc : Loci) :
  metric_invertible_at cfg G loc i j ->
  lower_raise cfg G v out1 out2 i j k loc = Some v.
Proof.
  intros (g & h & Hg & Hh & Hgh & _).
  unfold lower_raise, lower, raise.
  rewrite contraction_loops, Hh. cbn [bind].
  rewrite contraction_loops, Hg. cbn [bind].
  rewrite mat_vec_mul, Hgh, mat_vec_identity. reflexivity.
Qed.

(** X6. The round trip in the other order: lowering the raised vector gives
    the vector back, wherever the metric can be read and [gcon] is the
    inverse of [gcov]; in the flat-analytic configuration for every grid and
    argument; in the caching configuration at every zone of the block when
    the embedding inverts the metrics it produces. *)
Theorem lower_raise_roundtrip :
  (forall cfg G v out1 out2 i j k loc,
     metric_invertible_at cfg G loc i j ->
     lower_raise cfg G v out1 out2 i j k loc = Some v) /\
  (forall nc G v out1 out2 i j k loc,
     lower_raise (mkConfig true nc) G v out1 out2 i j k loc = Some v) /\
  (forall n1 n2 cs pmb,
     inverts_own_metric cs ->
     exists G,
       Grid_embedded cached_config n1 n2 (Some cs) pmb = Some G /\
       forall v out1 out2 i j k loc,
         0 <= i < n1 -> 0 <= j < n2 ->
         lower_raise cached_config G v out1 out2 i j k loc = Some v).
Proof.
  split; [|split].
  - intros. apply lower_raise_of_inverse. assumption.
  - intros. apply lower_raise_of_inverse, flat_metric_invertible.
  - intros n1 n2 cs pmb Hinv.
    destruct (Grid_embedded_cached n1 n2 cs pmb) as (G & Hrun & Hfill).
    exists G. split; [exact Hrun|].
    intros v out1 out2 i j k loc Hi Hj.
    apply lower_raise_of_inverse.
    apply cached_metric_invertible with (3 := Hinv) (2 := Hfill).
    + apply allocated_shaped.
    + split; assumption.
Qed.

Lemma lower_raise_roundtrip_witness :
  inverts_own_metric minkowski_embedding /\
  exists G,
    Grid_embedded cached_config 4 4 (Some minkowski_embedding) unit_block
    = Some G /\
    lower_raise cached_config G (mkArr4 1%R 2%R 3%R 4%R)
      zero_vector zero_vector 1 3 7 face3
    = Some (mkArr4 1%R 2%R 3%R 4%R).
Proof.
  split; [exact minkowski_embedding_inverts|].
  destruct (proj2 (proj2 lower_raise_roundtrip) 4 4 minkowski_embedding
              unit_block minkowski_embedding_inverts) as (G & Hrun & Hrt).
  exists G. split; [exact Hrun|].
  apply Hrt; lia.
Defined.

Lemma mat_vec_linear (g : Mat4) (a b : Real) (u v : Vec4) :
  mat_vec g (vadd (vscale a u) (vscale b v)) =
  vadd (vscale a (mat_vec g u)) (vscale b (mat_vec g v)).
Proof.
  unfold mat_vec, vadd, vscale, dot; cbn [e0 e1 e2 e3].
  f_equal; ring.
Qed.

(** X7. [lower] and [raise] are linear in the vector, in every
    configuration and at every zone and location where they return: the
    image of a*u + b*v is a times the image of u plus b times the image of
    v. *)
Theorem lower_raise_linear :
  forall (cfg : Config) (G : Grid) (a b : Real) (u v u' v' out : Vec4)
         (i j k : Z) (loc : Loci),
    (lower cfg G u out i j k loc = Some u' ->
     lower cfg G v out i j k loc = Some v' ->
     lower cfg G (vadd (vscale a u) (vscale b v)) out i j k loc =
       Some (vadd (vscale a u') (vscale b v'))) /\
    (raise cfg G u out i j k loc = Some u' ->
     raise cfg G v out i j k loc = Some v' ->
     raise cfg G (vadd (vscale a u) (vscale b v)) out i j k loc =
       Some (vadd (vscale a u') (vscale b v'))).
Proof.
  intros. split; intros Hu Hv.
  - unfold lower in *. rewrite contraction_loops in *.
    destruct (tabulate2 (gcov cfg G loc i j)) as [g|]; [|discriminate].
    cbn [bind] in *. injection Hu as Hu. injection Hv as Hv. subst u' v'.
    rewrite mat_vec_linear. reflexivity.
  - unfold raise in *. rewrite contraction_loops in *.
    destruct (tabulate2 (gcon cfg G loc i j)) as [h|]; [|discriminate].
    cbn [bind] in *. injection Hu as Hu. injection Hv as Hv. subst u' v'.
    rewrite mat_vec_linear. reflexivity.
Qed.

Lemma lower_raise_linear_witness :
  lower shipped_config (Grid_flat unit_block)
    (vadd (vscale 2%R (mkArr4 1%R 0%R 0%R 0%R))
          (vscale 3%R (mkArr4 0%R 1%R 0%R 0%R)))
    zero_vector 2 2 0 center
  = Some (vadd (vscale 2%R (mkArr4 (- 1)%R 0%R 0%R 0%R))
               (vscale 3%R (mkArr4 (- 0)%R 1%R 0%R 0%R))).
Proof.
  apply (proj1 (lower_raise_linear shipped_config (Grid_flat unit_block)
                  2%R 3%R (mkArr4 1%R 0%R 0%R 0%R) (mkArr4 0%R 1%R 0%R 0%R)
                  (mkArr4 (- 1)%R 0%R 0%R 0%R) (mkArr4 (- 0)%R 1%R 0%R 0%R)
                  zero_vector 2 2 0 center)).
  - apply lower_flat.
  - apply lower_flat.
Defined.

(** ** Lowering and raising on the cache *)

Lemma tabulate2_first_missing (f : Z -> Z -> option Real) :
  f 0 0 = None -> tabulate2 f = None.
Proof.
  intros H. unfold tabulate2, DLOOP2.
  rewrite for_range_unroll4, for_range_unroll4, H. reflexivity.
Qed.

(** X8. In the caching configuration, at every zone of the block and for
    every value of [k], [lower] multiplies by the embedding's metric at
    [coord(i,j,0,loc)] and [raise] by the matrix [gcon_native] makes of it:
    the third index the caller passes plays no part.  At an (i,j) outside
    the block neither has a result. *)
Theorem cached_lower_raise_use_third_index_zero :
  forall (n1 n2 : Z) (cs : CoordinateEmbedding) (pmb : MeshBlock),
  exists G,
    Grid_embedded cached_config n1 n2 (Some cs) pmb = Some G /\
    forall v out i j k loc,
      (0 <= i < n1 /\ 0 <= j < n2 ->
       lower cached_config G v out i j k loc =
         (X <- coord G i j 0 loc local_Vec4 ;;
          Some (mat_vec (gcov_native cs X) v)) /\
       raise cached_config G v out i j k loc =
         (X <- coord G i j 0 loc local_Vec4 ;;
          Some (mat_vec (snd (gcon_native cs (gcov_native cs X))) v))) /\
      (~ (0 <= i < n1 /\ 0 <= j < n2) ->
       lower cached_config G v out i j k loc = None /\
       raise cached_config G v out i j k loc = None).
Proof.
  intros n1 n2 cs pmb.
  destruct (Grid_embedded_cached n1 n2 cs pmb) as (G & Hrun & Hfill).
  pose proof (allocated_shaped (assigned n1 n2 (Some cs) pmb)) as Hshape.
  exists G. split; [exact Hrun|].
  intros v out i j k loc. split.
  - intros Hij.
    assert (Hij' : in_block (allocated (assigned n1 n2 (Some cs) pmb)) i j)
      by exact Hij.
    destruct (coord_returns G i j 0 loc local_Vec4) as [X HX].
    assert (Hg : metric_at G cs i j loc = Some (gcov_native cs X))
      by (unfold metric_at, native_at; rewrite HX; reflexivity).
    assert (Hh : inverse_at G cs i j loc =
                 Some (snd (gcon_native cs (gcov_native cs X))))
      by (unfold inverse_at; rewrite Hg; reflexivity).
    rewrite HX. cbn [bind]. split.
    + unfold lower. rewrite contraction_loops.
      unfold tabulate2.
      rewrite (tabulate_reads _ (gcov_native cs X)); [reflexivity|].
      intros mu nu _ _.
      rewrite (cached_gcov_component _ G cs Hshape Hfill), Hg by exact Hij'.
      reflexivity.
    + unfold raise. rewrite contraction_loops.
      unfold tabulate2.
      rewrite (tabulate_reads _ (snd (gcon_native cs (gcov_native cs X))));
        [reflexivity|].
      intros mu nu _ _.
      rewrite (cached_gcon_component _ G cs Hshape Hfill), Hh by exact Hij'.
      reflexivity.
  - intros Hout.
    pose proof (fun f idx =>
      filled_read_defined _ cs G f idx Hshape Hfill) as Hdef.
    assert (Hcov : gcov cached_config G loc i j 0 0 = None).
    { destruct (gcov cached_config G loc i j 0 0) eqn:E; [|reflexivity].
      exfalso. apply Hout.
      assert (Hd : gcov cached_config G loc i j 0 0 <> None)
        by (rewrite E; discriminate).
      apply (Hdef F_gcov) in Hd.
      apply tensor_index_in_bounds in Hd. apply Hd. }
    assert (Hcon : gcon cached_config G loc i j 0 0 = None).
    { destruct (gcon cached_config G loc i j 0 0) eqn:E; [|reflexivity].
      exfalso. apply Hout.
      assert (Hd : gcon cached_config G loc i j 0 0 <> None)
        by (rewrite E; discriminate).
      apply (Hdef F_gcon) in Hd.
      apply tensor_index_in_bounds in Hd. apply Hd. }
    split.
    + unfold lower. rewrite contraction_loops.
      rewrite tabulate2_first_missing by exact Hcov. reflexivity.
    + unfold raise. rewrite contraction_loops.
      rewrite tabulate2_first_missing by exact Hcon. reflexivity.
Qed.

Lemma cached_lower_raise_use_third_index_zero_witness :
  exists G,
    Grid_embedded cached_config 4 4 (Some minkowski_embedding) unit_block
    = Some G /\
    lower cached_config G (mkArr4 1%R 2%R 3%R 4%R) zero_vector 1 2 9 face2
    = Some (mat_vec minkowski_matrix (mkArr4 1%R 2%R 3%R 4%R)) /\
    lower cached_config G (mkArr4 1%R 2%R 3%R 4%R) zero_vector 4 2 0 face2
    = None.
Proof.
  destruct (cached_lower_raise_use_third_index_zero 4 4 minkowski_embedding
              unit_block) as (G & Hrun & Hall).
  exists G. split; [exact Hrun|]. split.
  - destruct (Hall (mkArr4 1%R 2%R 3%R 4%R) zero_vector 1 2 9 face2)
      as [Hin _].
    destruct Hin as [Hlow _]; [lia|].
    rewrite Hlow.
    destruct (coord_returns G 1 2 0 face2 local_Vec4) as [X HX].
    rewrite HX. reflexivity.
  - destruct (Hall (mkArr4 1%R 2%R 3%R 4%R) zero_vector 4 2 0 face2)
      as [_ Hout].
    apply Hout. lia.
Defined.

(** ** Running the initialiser again *)

Lemma allocated_extent (G G' : Grid) (f : Field) :
  gn1 G' = gn1 G -> gn2 G' = gn2 G ->
  extent (view_of f (allocated G')) = extent (view_of f (allocated G)).
Proof.
  intros H1 H2. destruct f; cbn; rewrite H1, H2; reflexivity.
Qed.

(** X9. [init_grids] allocates its views afresh, so that what the views
    held before plays no part: in the caching configuration a second run on
    the grid the first run returned returns as well, and every accessor
    returns, at all indices, what it returned after the first run. *)
Theorem init_grids_again_same_cache :
  forall (G G1 : Grid),
    init_grids cached_config G = Some G1 ->
    exists G2,
      init_grids cached_config G1 = Some G2 /\
      forall loc i j mu nu lam,
        gcov cached_config G2 loc i j mu nu =
          gcov cached_config G1 loc i j mu nu /\
        gcon cached_config G2 loc i j mu nu =
          gcon cached_config G1 loc i j mu nu /\
        gdet cached_config G2 loc i j = gdet cached_config G1 loc i j /\
        conn cached_config G2 i j mu nu lam =
          conn cached_config G1 i j mu nu lam.
Proof.
  intros G G1 Hinit.
  destruct (coords G) as [cs|] eqn:Hcs.
  2: { rewrite init_grids_cached_unfold, Hcs in Hinit. discriminate Hinit. }
  destruct (init_grids_cached_fills G cs Hcs) as (G1' & Hrun1 & Hfill1).
  rewrite Hrun1 in Hinit. injection Hinit as Hinit. subst G1'.
  assert (Hfr : same_frame (allocated G) G1) by apply Hfill1.
  assert (Hcs1 : coords G1 = Some cs).
  { destruct Hfr as (Hc & _). rewrite Hc. exact Hcs. }
  assert (Hn1 : gn1 G1 = gn1 G) by apply Hfr.
  assert (Hn2 : gn2 G1 = gn2 G) by apply Hfr.
  destruct (init_grids_cached_fills G1 cs Hcs1) as (G2 & Hrun2 & Hfill2).
  exists G2. split; [exact Hrun2|].
  assert (Hread : forall f idx,
            view_read (view_of f G2) idx = view_read (view_of f G1) idx).
  { intros f idx.
    rewrite (filled_view_read _ cs G2 f idx (allocated_shaped G1) Hfill2).
    rewrite (filled_view_read _ cs G1 f idx (allocated_shaped G) Hfill1).
    rewrite (allocated_extent G G1 f Hn1 Hn2).
    rewrite (cache_target_ext (allocated G1) (allocated G)); [reflexivity|].
    intros i j loc.
    change (native_at (allocated G1) i j loc) with (native_at G1 i j loc).
    apply native_at_frame, Hfr. }
  intros loc i j mu nu lam. repeat split.
  - apply (Hread F_gcov).
  - apply (Hread F_gcon).
  - apply (Hread F_gdet).
  - apply (Hread F_conn).
Qed.

Lemma init_grids_again_same_cache_witness :
  exists G1 G2,
    init_grids cached_config
      (assigned 4 4 (Some minkowski_embedding) unit_block) = Some G1 /\
    init_grids cached_config G1 = Some G2 /\
    gdet cached_config G2 corner 3 3 = gdet cached_config G1 corner 3 3.
Proof.
  destruct (init_grids_cached_fills
              (assigned 4 4 (Some minkowski_embedding) unit_block)
              minkowski_embedding eq_refl)
    as (G1 & Hrun & _).
  destruct (init_grids_again_same_cache
              (assigned 4 4 (Some minkowski_embedding) unit_block) G1 Hrun)
    as (G2 & Hrun2 & Hsame).
  exists G1, G2. split; [exact Hrun|]. split; [exact Hrun2|].
  apply (Hsame corner 3 3 0 0 0).
Defined.

(** ** A block without zones *)

Lemma for_each_skip {I S : Type} (l : list I) (body : I -> S -> option S)
    (s : S) :
  (forall i s', body i s' = Some s') -> for_each l body s = Some s.
Proof.
  intros H. induction l as [|i l IH]; [reflexivity|].
  cbn [for_each]. rewrite H. exact IH.
Qed.

Lemma parallel_for2_no_zone {S : Type} (n1 n2 : Z)
    (body : Z -> Z -> S -> option S) (s : S) :
  n1 = 0 \/ n2 = 0 -> parallel_for2 n1 n2 body s = Some s.
Proof.
  intros [H|H]; subst; unfold parallel_for2.
  - reflexivity.
  - unfold for_range at 1. apply for_each_skip. intros i s'. reflexivity.
Qed.

(** X10. With no zone along the first or the second axis the caching
    constructor runs no iteration of either kernel: it returns the object
    with its four views allocated and nothing written, without a call to
    the embedding, and no accessor has a value at any index. *)
Theorem empty_block_has_empty_cache :
  forall (n1 n2 : Z) (cs : CoordinateEmbedding) (pmb : MeshBlock),
    n1 = 0 \/ n2 = 0 ->
    Grid_embedded cached_config n1 n2 (Some cs) pmb =
      Some (allocated (assigned n1 n2 (Some cs) pmb)) /\
    forall loc i j mu nu lam,
      gcov cached_config (allocated (assigned n1 n2 (Some cs) pmb))
        loc i j mu nu = None /\
      gcon cached_config (allocated (assigned n1 n2 (Some cs) pmb))
        loc i j mu nu = None /\
      gdet cached_config (allocated (assigned n1 n2 (Some cs) pmb))
        loc i j = None /\
      conn cached_config (allocated (assigned n1 n2 (Some cs) pmb))
        i j mu nu lam = None.
Proof.
  intros n1 n2 cs pmb Hempty. split.
  - unfold Grid_embedded. rewrite init_grids_cached_unfold.
    cbn [assigned coords bind].
    change (gn1 (allocated (assigned n1 n2 (Some cs) pmb))) with n1.
    change (gn2 (allocated (assigned n1 n2 (Some cs) pmb))) with n2.
    rewrite parallel_for2_no_zone by exact Hempty. cbn [bind].
    apply parallel_for2_no_zone, Hempty.
  - assert (Hno : forall i j, ~ (0 <= i < n1 /\ 0 <= j < n2)) by lia.
    intros loc i j mu nu lam.
    assert (Hnone : forall (f : Field) (idx : list Z),
              in_bounds idx
                (extent (view_of f (allocated (assigned n1 n2 (Some cs) pmb))))
              = false ->
              view_read (view_of f (allocated (assigned n1 n2 (Some cs) pmb)))
                idx = None).
    { intros f idx H. unfold view_read. rewrite H. reflexivity. }
    repeat split.
    + apply (Hnone F_gcov). apply not_true_is_false. intros H.
      apply tensor_index_in_bounds in H. apply (Hno i j), H.
    + apply (Hnone F_gcon). apply not_true_is_false. intros H.
      apply tensor_index_in_bounds in H. apply (Hno i j), H.
    + apply (Hnone F_gdet). apply not_true_is_false. intros H.
      apply scalar_index_in_bounds in H. apply (Hno i j), H.
    + apply (Hnone F_conn). apply not_true_is_false. intros H.
      apply conn_index_in_bounds in H. apply (Hno i j), H.
Qed.

Lemma empty_block_has_empty_cache_witness :
  Grid_embedded cached_config 0 4 (Some minkowski_embedding) unit_block =
    Some (allocated (assigned 0 4 (Some minkowski_embedding) unit_block)) /\
  gdet cached_config
    (allocated (assigned 0 4 (Some minkowski_embedding) unit_block))
    center 0 0 = None.
Proof.
  destruct (empty_block_has_empty_cache 0 4 minkowski_embedding unit_block
              (or_introl eq_refl)) as [Hrun Hnone].
  split; [exact Hrun|].
  apply (Hnone center 0 0 0 0 0).
Defined.
